(** * ts-semaphore: a counting semaphore with a FIFO wait queue

    Shallow embedding of [src/semaphore.ts] (class [Semaphore]: the
    constructor and the methods [down] and [up]) and the properties its
    specification states about it, followed by the tasks that
    [src/semaphore-usage.ts] and the concurrency tests run on one shared
    semaphore, under any interleaving of their segments.

    Modelling choices.
    - [capacityLeft] is a JavaScript [number], an IEEE-754 binary64 value,
      that the class only ever initialises, compares with [0], increments
      and decrements.  The capacities considered are integers, so the field
      holds the integer value of such a number ([Z], [is_number]); [++] and
      [--] add or subtract one and round the result to the nearest binary64
      value, ties to the even significand ([round64]).  The result is exact
      up to 2^53 in magnitude ([EXACT_LIMIT]) and is rounded beyond.
    - [queue] is an [Array] used as a FIFO: [push] appends at the end,
      [shift] removes the front and yields [undefined] on an empty array.
      Its elements are the [resolve] functions of the promises that [down]
      creates; a resolve function is identified by a [resolver] id.
    - Calling a value that is not a function throws a [TypeError]; this is
      the only way the body of [up] could fail, so [up] is written in an
      error monad and its absence of failures is proved, not assumed. *)

From Stdlib Require Import ZArith List Lia Bool PeanoNat Permutation.
Import ListNotations.

Set Implicit Arguments.

Local Open Scope Z_scope.

(* ------------------------------------------------------------------ *)
(** ** The JavaScript fragment the class relies on *)

Module JS.

(** Errors a call can throw. *)
Inductive error : Set := TypeError.

(** Completion of a statement sequence: normal, or an exception. *)
Inductive result (A : Type) : Type :=
| Ok (a : A)
| Throw (e : error).

Arguments Ok {A} a.
Arguments Throw {A} e.

Definition bind {A B : Type} (c : result A) (k : A -> result B) : result B :=
  match c with
  | Ok a => k a
  | Throw e => Throw e
  end.

(** *** Numbers

    A binary64 value has a significand of 53 bits.  Every integer of
    magnitude at most 2^53 is such a value; beyond, in the binade
    [2^e <= a < 2^(e+1)], the values are the multiples of [2^(e-52)]. *)

Definition EXACT_LIMIT : Z := 9007199254740992.   (* 2^53 *)

(** Spacing of the binary64 values around [a], for [a] above [2^53]. *)
Definition ulp (a : Z) : Z := 2 ^ (Z.log2 a - 52).

(** The multiple of [u] nearest to [a]; halfway, the even multiple. *)
Definition nearest_even (a u : Z) : Z :=
  let q := a / u in
  let r := a mod u in
  if 2 * r <? u then q * u
  else if u <? 2 * r then (q + 1) * u
  else if Z.even q then q * u else (q + 1) * u.

Definition round_mag (a : Z) : Z :=
  if a <=? EXACT_LIMIT then a else nearest_even a (ulp a).

(** The binary64 value nearest to the integer [x] (round to nearest, ties to
    even), as an integer. *)
Definition round64 (x : Z) : Z := Z.sgn x * round_mag (Z.abs x).

(** [Number.MAX_VALUE], the largest finite number. *)
Definition MAX_VALUE : Z := (2 ^ 53 - 1) * 2 ^ 971.

(** The integer [x] is the value of a (finite) JavaScript number. *)
Definition is_number (x : Z) : bool :=
  (round64 x =? x) && (Z.abs x <=? MAX_VALUE).

(** The value [x++] stores. *)
Definition incr (x : Z) : Z := round64 (x + 1).

(** The value [x--] stores. *)
Definition decr (x : Z) : Z := round64 (x - 1).

(** *** Arrays *)

(** [Array.prototype.push]: append at the end. *)
Definition push {A : Type} (arr : list A) (x : A) : list A := arr ++ [x].

(** [Array.prototype.shift]: remove and return the first element;
    [undefined] ([None]) when the array is empty. *)
Definition shift {A : Type} (arr : list A) : option A * list A :=
  match arr with
  | [] => (None, [])
  | x :: rest => (Some x, rest)
  end.

End JS.

Import JS.

Arguments round64 : simpl never.
Arguments incr : simpl never.
Arguments decr : simpl never.

Declare Scope js_scope.
Notation "x <- c ;; k" := (bind c (fun x => k))
  (at level 61, c at next level, right associativity) : js_scope.
Notation "' p <- c ;; k" := (bind c (fun p => k))
  (at level 61, p pattern, c at next level, right associativity) : js_scope.
Local Open Scope js_scope.

(* ------------------------------------------------------------------ *)
(** ** The class [Semaphore] *)

(** Identity of the [resolve] function of one promise created by [down]. *)
Definition resolver : Set := nat.
Bind Scope nat_scope with resolver.

(** [capacityLeft] holds the integer value of the number in the field. *)
Record Semaphore : Set := mkSemaphore {
  capacityLeft : Z;
  queue : list resolver
}.

(** [constructor(capacity)]: two field assignments, no check.  [capacity] is
    the value of the number passed. *)
Definition constructor (capacity : Z) : Semaphore :=
  {| capacityLeft := capacity; queue := [] |}.

(** What [down] hands back to its caller: [undefined] (the first [return;],
    on which [await] goes on at once) or the new promise, which stays
    pending until its [resolve] is called. *)
Inductive downReturn : Set :=
| Undefined
| Pending (p : resolver).

(** [down()].  [fresh] is the resolve function of the promise that
    [new Promise(...)] allocates in the second branch; the executor runs
    synchronously and pushes it. *)
Definition down (fresh : resolver) (s : Semaphore) : downReturn * Semaphore :=
  if 0 <? capacityLeft s then
    (Undefined, {| capacityLeft := decr (capacityLeft s); queue := queue s |})
  else
    (Pending fresh,
     {| capacityLeft := capacityLeft s; queue := push (queue s) fresh |}).

(** [up()].  The first component of the result is the resolve function that
    was called ([next()]), if any. *)
Definition up (s : Semaphore) : result (option resolver * Semaphore) :=
  if (length (queue s) =? 0)%nat then
    Ok (None, {| capacityLeft := incr (capacityLeft s); queue := queue s |})
  else
    let '(next, rest) := shift (queue s) in
    match next with
    | Some r => Ok (Some r, {| capacityLeft := capacityLeft s; queue := rest |})
    | None => Throw TypeError
    end.

(* ------------------------------------------------------------------ *)
(** ** Sequences of calls *)

(** One call on a shared semaphore. *)
Inductive op : Set :=
| Down (fresh : resolver)
| Up.

(** What a call did, as seen by the tasks. *)
Inductive event : Set :=
| Acquired                (* down returned at once *)
| Suspended (r : resolver) (* down returned a pending promise *)
| Released                (* up gave the unit back to the counter *)
| Resumed (r : resolver).  (* up resolved the promise of a waiter *)

Definition step (o : op) (s : Semaphore) : result (event * Semaphore) :=
  match o with
  | Down fresh =>
      let '(ret, s') := down fresh s in
      Ok (match ret with Undefined => Acquired | Pending p => Suspended p end, s')
  | Up =>
      '(next, s') <- up s ;;
      Ok (match next with None => Released | Some r => Resumed r end, s')
  end.

(** The calls of [ops] in order; the events are listed in call order. *)
Fixpoint run (ops : list op) (s : Semaphore) : result (list event * Semaphore) :=
  match ops with
  | [] => Ok ([], s)
  | o :: rest =>
      '(e, s1) <- step o s ;;
      '(es, s2) <- run rest s1 ;;
      Ok (e :: es, s2)
  end.

(** The waiters an event list resumed, in order. *)
Fixpoint resumed (es : list event) : list resolver :=
  match es with
  | [] => []
  | Resumed r :: rest => r :: resumed rest
  | _ :: rest => resumed rest
  end.

(** Free units minus waiting tasks. *)
Definition balance (s : Semaphore) : Z :=
  capacityLeft s - Z.of_nat (length (queue s)).

Definition is_down (o : op) : bool :=
  match o with Down _ => true | Up => false end.

Definition is_up (o : op) : bool := negb (is_down o).

Definition count_downs (ops : list op) : nat := length (filter is_down ops).
Definition count_ups (ops : list op) : nat := length (filter is_up ops).

(** The four ways a call can go; no call throws. *)
Inductive stepped (s : Semaphore) : op -> event -> Semaphore -> Prop :=
| stepped_acquire fresh :
    0 < capacityLeft s ->
    stepped s (Down fresh) Acquired
      {| capacityLeft := decr (capacityLeft s); queue := queue s |}
| stepped_suspend fresh :
    capacityLeft s <= 0 ->
    stepped s (Down fresh) (Suspended fresh)
      {| capacityLeft := capacityLeft s; queue := queue s ++ [fresh] |}
| stepped_release :
    queue s = [] ->
    stepped s Up Released
      {| capacityLeft := incr (capacityLeft s); queue := [] |}
| stepped_resume r rest :
    queue s = r :: rest ->
    stepped s Up (Resumed r)
      {| capacityLeft := capacityLeft s; queue := rest |}.

(** A run is a chain of [stepped] calls. *)
Inductive ran : Semaphore -> list op -> list event -> Semaphore -> Prop :=
| ran_nil s : ran s [] [] s
| ran_cons s o e s1 ops es s2 :
    stepped s o e s1 -> ran s1 ops es s2 -> ran s (o :: ops) (e :: es) s2.

(** [k] times [x++]. *)
Definition incr_times (k : nat) (x : Z) : Z := Nat.iter k incr x.

(** With [floor] the lesser of the initial capacity and zero: the counter
    never drops below [floor], and is not positive while a task waits. *)
Definition bounded_wait (floor : Z) (s : Semaphore) : Prop :=
  floor <= capacityLeft s /\ (queue s <> [] -> capacityLeft s <= 0).

(** States a semaphore constructed with the number [capacity] can be in
    after some sequence of calls. *)
Definition reachable (capacity : Z) (s : Semaphore) : Prop :=
  is_number capacity = true
  /\ exists ops es, run ops (constructor capacity) = Ok (es, s).

(** A task only waits while the counter is exactly zero. *)
Definition waiting_only_at_zero (s : Semaphore) : Prop :=
  queue s <> [] -> capacityLeft s = 0.

(** Does a [down] issued after [m] calls of [up] on a new semaphore of the
    given capacity return at once? *)
Definition immediate_after (capacity : Z) (m : nat) (fresh : resolver) : bool :=
  match run (repeat Up m) (constructor capacity) with
  | Ok (_, s) =>
      match fst (down fresh s) with
      | Undefined => true
      | Pending _ => false
      end
  | Throw _ => false
  end.

(** Exactly [k] releases are needed before a [down] returns at once:
    [k] are enough and fewer are not. *)
Definition releases_required (capacity : Z) (k : nat) : Prop :=
  forall (m : nat) (fresh : resolver),
    immediate_after capacity m fresh = true <-> (k <= m)%nat.

(* ------------------------------------------------------------------ *)
(** ** Reading a trace *)

(** The callers an event list suspended, in order. *)
Fixpoint suspended (es : list event) : list resolver :=
  match es with
  | [] => []
  | Suspended r :: rest => r :: suspended rest
  | _ :: rest => suspended rest
  end.

(** A unit was handed to a caller: at once, or by resuming it. *)
Definition is_grant (e : event) : bool :=
  match e with
  | Acquired | Resumed _ => true
  | Suspended _ | Released => false
  end.

Definition granted (es : list event) : nat := length (filter is_grant es).

(** The resolve functions the [down] calls of a sequence bring along. *)
Fixpoint fresh_of (ops : list op) : list resolver :=
  match ops with
  | [] => []
  | Down fresh :: rest => fresh :: fresh_of rest
  | Up :: rest => fresh_of rest
  end.

(* ------------------------------------------------------------------ *)
(** ** The tasks of the usage program and of the concurrency tests

    [semaphore-usage.ts] and the tests "should handle concurrent access
    correctly" and "should handle stress test with many concurrent
    operations" start [K] tasks on one semaphore, each running

      await semaphore.down();  results.push(i);  await <timer>;  semaphore.up();

    (the usage program logs [i] where the tests push it).  JavaScript runs
    the code between two [await]s in one piece, so a task is three segments:
    the call of [down]; the entry into the critical section once that call's
    result is available; and the call of [up] once the timer has fired.  The
    order in which runnable segments of different tasks are taken is left
    open (the stress test draws the timer delays at random): a schedule is
    any list of task indices. *)

(** Where a task stands. *)
Inductive phase : Set :=
| Idle      (* not started *)
| Waiting   (* down returned a pending promise: suspended at the first await *)
| Granted   (* down returned undefined, or its promise got resolved *)
| Working   (* in the critical section: pushed its index, timer running *)
| Done.     (* called up and returned *)

Record System : Set := mkSystem {
  semaphore : Semaphore;
  tasks : list phase;
  results : list nat
}.

(** [K] tasks about to start on [new Semaphore(capacity)], [results] empty. *)
Definition launch (capacity : Z) (K : nat) : System :=
  {| semaphore := constructor capacity; tasks := repeat Idle K; results := [] |}.

Fixpoint set_phase (i : nat) (p : phase) (ps : list phase) : list phase :=
  match ps, i with
  | [], _ => []
  | _ :: rest, O => p :: rest
  | q :: rest, S j => q :: set_phase j p rest
  end.

(** Calling the resolve function [r]: the task suspended on that promise (the
    task whose [down] created it) may go on. *)
Definition resolve (r : resolver) (ps : list phase) : list phase :=
  match nth_error ps r with
  | Some Waiting => set_phase r Granted ps
  | _ => ps
  end.

(** What running a segment of a task gives. *)
Inductive outcome : Set :=
| Blocked                  (* the task has no segment that can run now *)
| Rejected (e : error)     (* the segment threw: the task's promise rejects *)
| Stepped (st : System).

(** The next segment of task [i].  The promise its [down] creates, and so
    the resolve function that is queued, is identified with [i]. *)
Definition segment (i : nat) (st : System) : outcome :=
  match nth_error (tasks st) i with
  | Some Idle =>
      let '(ret, s') := down i (semaphore st) in
      Stepped {| semaphore := s';
                 tasks := set_phase i (match ret with
                                       | Undefined => Granted
                                       | Pending _ => Waiting
                                       end) (tasks st);
                 results := results st |}
  | Some Granted =>
      Stepped {| semaphore := semaphore st;
                 tasks := set_phase i Working (tasks st);
                 results := push (results st) i |}
  | Some Working =>
      match up (semaphore st) with
      | Ok (next, s') =>
          let ps := set_phase i Done (tasks st) in
          Stepped {| semaphore := s';
                     tasks := match next with
                              | Some r => resolve r ps
                              | None => ps
                              end;
                     results := results st |}
      | Throw e => Rejected e
      end
  | Some Waiting | Some Done | None => Blocked
  end.

(** The segments of a schedule, in order. *)
Fixpoint exec (sched : list nat) (st : System) : outcome :=
  match sched with
  | [] => Stepped st
  | i :: rest =>
      match segment i st with
      | Stepped st1 => exec rest st1
      | stuck => stuck
      end
  end.

Fixpoint total (f : phase -> Z) (ps : list phase) : Z :=
  match ps with
  | [] => 0
  | p :: rest => f p + total f rest
  end.

(** Tasks that hold a unit: granted and not yet released. *)
Definition holding (p : phase) : Z :=
  match p with
  | Granted | Working => 1
  | Idle | Waiting | Done => 0
  end.

Definition holders (st : System) : Z := total holding (tasks st).

(** Segments a task still has to run. *)
Definition remaining (p : phase) : Z :=
  match p with
  | Idle => 3
  | Waiting | Granted => 2
  | Working => 1
  | Done => 0
  end.

Definition all_done (st : System) : Prop :=
  forall i p, nth_error (tasks st) i = Some p -> p = Done.

(** Some task has not finished. *)
Definition unfinished (st : System) : Prop :=
  exists i p, nth_error (tasks st) i = Some p /\ p <> Done.

(** The ways a segment can run. *)
Inductive moved (i : nat) (st : System) : System -> Prop :=
| moved_start_acquire :
    nth_error (tasks st) i = Some Idle ->
    0 < capacityLeft (semaphore st) ->
    moved i st
      {| semaphore := {| capacityLeft := decr (capacityLeft (semaphore st));
                         queue := queue (semaphore st) |};
         tasks := set_phase i Granted (tasks st);
         results := results st |}
| moved_start_suspend :
    nth_error (tasks st) i = Some Idle ->
    capacityLeft (semaphore st) <= 0 ->
    moved i st
      {| semaphore := {| capacityLeft := capacityLeft (semaphore st);
                         queue := queue (semaphore st) ++ [i] |};
         tasks := set_phase i Waiting (tasks st);
         results := results st |}
| moved_enter :
    nth_error (tasks st) i = Some Granted ->
    moved i st
      {| semaphore := semaphore st;
         tasks := set_phase i Working (tasks st);
         results := results st ++ [i] |}
| moved_leave_release :
    nth_error (tasks st) i = Some Working ->
    queue (semaphore st) = [] ->
    moved i st
      {| semaphore := {| capacityLeft := incr (capacityLeft (semaphore st));
                         queue := [] |};
         tasks := set_phase i Done (tasks st);
         results := results st |}
| moved_leave_handoff r rest :
    nth_error (tasks st) i = Some Working ->
    queue (semaphore st) = r :: rest ->
    moved i st
      {| semaphore := {| capacityLeft := capacityLeft (semaphore st);
                         queue := rest |};
         tasks := resolve r (set_phase i Done (tasks st));
         results := results st |}.

(** What the tasks keep true of a semaphore constructed with [capacity]. *)
Record consistent (capacity : Z) (K : nat) (st : System) : Prop := {
  cons_length : length (tasks st) = K;
  cons_floor : 0 <= capacity -> 0 <= capacityLeft (semaphore st);
  cons_live : 1 <= capacity -> 1 <= holders st + capacityLeft (semaphore st);
  cons_units : 0 <= capacity <= EXACT_LIMIT ->
               holders st + capacityLeft (semaphore st) = capacity;
  cons_wait : queue (semaphore st) <> [] -> capacityLeft (semaphore st) <= 0;
  cons_queue_nodup : NoDup (queue (semaphore st));
  cons_queue : forall i,
      In i (queue (semaphore st)) <-> nth_error (tasks st) i = Some Waiting;
  cons_results_nodup : NoDup (results st);
  cons_results : forall i,
      In i (results st)
      <-> (nth_error (tasks st) i = Some Working
           \/ nth_error (tasks st) i = Some Done)
}.

(* ------------------------------------------------------------------ *)
(** ** Scenarios of the test suite *)

Example test_fifo_order :
  run [Down 0; Down 1; Down 2; Down 3; Up; Up; Up] (constructor 1)
  = Ok ([Acquired; Suspended 1; Suspended 2; Suspended 3;
         Resumed 1; Resumed 2; Resumed 3],
        {| capacityLeft := 0; queue := [] |}).
Proof. reflexivity. Qed.

Example test_zero_capacity :
  run [Down 7; Up] (constructor 0)
  = Ok ([Suspended 7; Resumed 7], {| capacityLeft := 0; queue := [] |}).
Proof. reflexivity. Qed.

Example test_multiple_up :
  run [Down 0; Up; Up; Up; Down 1; Down 2] (constructor 2)
  = Ok ([Acquired; Released; Released; Released; Acquired; Acquired],
        {| capacityLeft := 2; queue := [] |}).
Proof. reflexivity. Qed.

Example test_concurrent_access :
  exec [0; 1; 2; 3; 4; 0; 1; 0; 1; 2; 3; 3; 2; 4; 4]%nat (launch 2 5)
  = Stepped {| semaphore := constructor 2;
               tasks := repeat Done 5;
               results := [0; 1; 2; 3; 4]%nat |}.
Proof. reflexivity. Qed.

Example test_concurrent_access_blocked :
  exec [0; 1; 2; 2]%nat (launch 2 5) = Blocked.
Proof. reflexivity. Qed.

(** The rounding of [++] and [--] at and beyond 2^53. *)
Example incr_at_limit : incr 9007199254740992 = 9007199254740992.
Proof. reflexivity. Qed.

Example incr_below_limit : incr 9007199254740991 = 9007199254740992.
Proof. reflexivity. Qed.

Example decr_above_limit : decr 9007199254740994 = 9007199254740992.
Proof. reflexivity. Qed.

Example decr_at_2_54 : decr 18014398509481984 = 18014398509481984.
Proof. reflexivity. Qed.

Example incr_negative_above_limit :
  incr (-9007199254740994) = -9007199254740992.
Proof. reflexivity. Qed.

Example incr_at_minus_2_54 : incr (-18014398509481984) = -18014398509481984.
Proof. reflexivity. Qed.

Example down_up_above_limit :
  run [Down 0; Up] (constructor 9007199254740994)
  = Ok ([Acquired; Released],
        {| capacityLeft := 9007199254740992; queue := [] |}).
Proof. reflexivity. Qed.

(* ------------------------------------------------------------------ *)
(** ** Rounding to binary64 *)

Unset Implicit Arguments.

Lemma limit_pow : EXACT_LIMIT = 2 ^ 53.
Proof. reflexivity. Qed.

Lemma round64_exact (y : Z) : Z.abs y <= EXACT_LIMIT -> round64 y = y.
Proof.
  intros H. unfold round64, round_mag.
  destruct (Z.leb_spec (Z.abs y) EXACT_LIMIT); [| lia].
  rewrite Z.mul_comm. apply Z.abs_sgn.
Qed.

(** The binade of [a]: e = log2 a, u = 2^(e-52), 2^52 * u <= a < 2^53 * u. *)
Lemma binade (a : Z) :
  EXACT_LIMIT < a ->
  1 < ulp a /\ 4503599627370496 * ulp a <= a < EXACT_LIMIT * ulp a.
Proof.
  intros Ha. unfold ulp.
  assert (Hpos : 0 < a) by (unfold EXACT_LIMIT in Ha; lia).
  destruct (Z.log2_spec a Hpos) as [Hlo Hhi].
  assert (He : 53 <= Z.log2 a).
  { apply Z.log2_le_pow2; [exact Hpos |]. rewrite <- limit_pow. lia. }
  set (e := Z.log2 a) in *.
  assert (H1 : 2 ^ e = 2 ^ 52 * 2 ^ (e - 52)).
  { rewrite <- Z.pow_add_r by lia. f_equal. lia. }
  assert (H2 : 2 ^ Z.succ e = 2 ^ 53 * 2 ^ (e - 52)).
  { rewrite <- Z.pow_add_r by lia. f_equal. lia. }
  assert (H3 : 2 ^ 1 <= 2 ^ (e - 52)) by (apply Z.pow_le_mono_r; lia).
  change (2 ^ 1) with 2 in H3.
  change (2 ^ 52) with 4503599627370496 in H1.
  change (2 ^ 53) with EXACT_LIMIT in H2.
  split; [lia |]. rewrite <- H1, <- H2. split; [exact Hlo | exact Hhi].
Qed.

Lemma nearest_even_bounds (a u : Z) :
  0 < u -> 0 <= a ->
  (a / u) * u <= nearest_even a u <= (a / u + 1) * u
  /\ (nearest_even a u = (a / u) * u \/ nearest_even a u = (a / u + 1) * u).
Proof.
  intros Hu Ha. unfold nearest_even.
  destruct (2 * (a mod u) <? u); [split; [lia | left; reflexivity] |].
  destruct (u <? 2 * (a mod u)); [split; [lia | right; reflexivity] |].
  destruct (Z.even (a / u)); (split; [lia |]); [left | right]; reflexivity.
Qed.

Lemma nearest_even_mono (a b u : Z) :
  0 < u -> 0 <= a -> a <= b -> nearest_even a u <= nearest_even b u.
Proof.
  intros Hu Ha Hab.
  pose proof (Z.div_mod a u ltac:(lia)) as Ea.
  pose proof (Z.div_mod b u ltac:(lia)) as Eb.
  pose proof (Z.mod_pos_bound a u Hu) as Ra.
  pose proof (Z.mod_pos_bound b u Hu) as Rb.
  assert (Hq : a / u <= b / u) by (apply Z.div_le_mono; lia).
  destruct (Z.eq_dec (a / u) (b / u)) as [E | E].
  - assert (Hr : a mod u <= b mod u) by (rewrite E in Ea; nia).
    unfold nearest_even. rewrite E.
    destruct (Z.ltb_spec (2 * (a mod u)) u);
      destruct (Z.ltb_spec (2 * (b mod u)) u);
      destruct (Z.ltb_spec u (2 * (a mod u)));
      destruct (Z.ltb_spec u (2 * (b mod u)));
      destruct (Z.even (b / u)); nia.
  - destruct (nearest_even_bounds a u Hu Ha) as [[_ H1] _].
    destruct (nearest_even_bounds b u Hu ltac:(lia)) as [[H2 _] _].
    nia.
Qed.

Lemma round_mag_bounds (a : Z) :
  EXACT_LIMIT < a ->
  4503599627370496 * ulp a <= round_mag a <= EXACT_LIMIT * ulp a.
Proof.
  intros Ha. destruct (binade a Ha) as [Hu [Hlo Hhi]].
  unfold round_mag. destruct (Z.leb_spec a EXACT_LIMIT); [lia |].
  destruct (nearest_even_bounds a (ulp a) ltac:(lia) ltac:(lia)) as [[H1 H2] _].
  assert (4503599627370496 <= a / ulp a) by (apply Z.div_le_lower_bound; lia).
  assert (a / ulp a < EXACT_LIMIT) by (apply Z.div_lt_upper_bound; lia).
  unfold EXACT_LIMIT in *. nia.
Qed.

Lemma ulp_mono (a b : Z) : 0 < a -> a <= b -> ulp a <= ulp b.
Proof.
  intros Ha Hab. unfold ulp.
  pose proof (Z.log2_le_mono a b Hab).
  pose proof (Z.log2_nonneg a).
  destruct (Z_le_gt_dec 52 (Z.log2 a)).
  - apply Z.pow_le_mono_r; lia.
  - rewrite (Z.pow_neg_r 2 (Z.log2 a - 52)) by lia. apply Z.pow_nonneg. lia.
Qed.

Lemma round_mag_mono (a b : Z) :
  0 <= a -> a <= b -> round_mag a <= round_mag b.
Proof.
  intros Ha Hab.
  destruct (Z_le_gt_dec b EXACT_LIMIT) as [Hb | Hb].
  - unfold round_mag.
    destruct (Z.leb_spec a EXACT_LIMIT); destruct (Z.leb_spec b EXACT_LIMIT); lia.
  - destruct (Z_le_gt_dec a EXACT_LIMIT) as [Ha' | Ha'].
    + pose proof (round_mag_bounds b ltac:(lia)) as Hbb.
      destruct (binade b ltac:(lia)) as [Hu _].
      unfold round_mag at 1. destruct (Z.leb_spec a EXACT_LIMIT); [| lia].
      unfold EXACT_LIMIT in *. nia.
    + destruct (Z.eq_dec (ulp a) (ulp b)) as [E | E].
      * unfold round_mag.
        destruct (Z.leb_spec a EXACT_LIMIT); destruct (Z.leb_spec b EXACT_LIMIT);
          try lia.
        rewrite E. destruct (binade b ltac:(lia)) as [Hu _].
        apply nearest_even_mono; lia.
      * pose proof (ulp_mono a b ltac:(unfold EXACT_LIMIT in *; lia) Hab) as Hle.
        pose proof (round_mag_bounds a ltac:(lia)) as [_ Hba].
        pose proof (round_mag_bounds b ltac:(lia)) as [Hbb _].
        destruct (binade a ltac:(lia)) as [Hua _].
        (* ulp b >= 2 * ulp a, both powers of two *)
        assert (H2 : 2 * ulp a <= ulp b).
        { unfold ulp in *.
          assert (Z.log2 a < Z.log2 b).
          { pose proof (Z.log2_le_mono a b Hab).
            destruct (Z.eq_dec (Z.log2 a) (Z.log2 b)) as [E' | E'];
              [rewrite E' in E; contradiction E; reflexivity | lia]. }
          assert (53 <= Z.log2 a).
          { apply Z.log2_le_pow2; [unfold EXACT_LIMIT in *; lia |].
            rewrite <- limit_pow. lia. }
          replace (Z.log2 b - 52) with ((Z.log2 a - 52) + (Z.log2 b - Z.log2 a)) by lia.
          rewrite Z.pow_add_r by lia.
          assert (2 ^ 1 <= 2 ^ (Z.log2 b - Z.log2 a)) by (apply Z.pow_le_mono_r; lia).
          change (2 ^ 1) with 2 in *. nia. }
        unfold EXACT_LIMIT in *. nia.
Qed.

Lemma round_mag_nonneg (a : Z) : 0 <= a -> 0 <= round_mag a.
Proof.
  intros Ha. pose proof (round_mag_mono 0 a ltac:(lia) Ha) as H.
  exact H.
Qed.

Lemma round64_mono (x y : Z) : x <= y -> round64 x <= round64 y.
Proof.
  intros Hxy. unfold round64.
  destruct (Z_lt_le_dec x 0) as [Hx | Hx]; destruct (Z_lt_le_dec y 0) as [Hy | Hy].
  - rewrite !Z.sgn_neg by lia.
    pose proof (round_mag_mono (Z.abs y) (Z.abs x) ltac:(lia) ltac:(lia)). lia.
  - rewrite (Z.sgn_neg x) by lia.
    pose proof (round_mag_nonneg (Z.abs x) ltac:(lia)).
    pose proof (round_mag_nonneg (Z.abs y) ltac:(lia)).
    pose proof (Z.sgn_nonneg y). nia.
  - lia.
  - pose proof (round_mag_mono (Z.abs x) (Z.abs y) ltac:(lia) ltac:(lia)).
    destruct (Z.eq_dec x 0) as [-> | Nx].
    + simpl. pose proof (round_mag_nonneg (Z.abs y) ltac:(lia)).
      pose proof (Z.sgn_nonneg y). nia.
    + rewrite !Z.sgn_pos by lia. lia.
Qed.

Lemma nearest_even_multiple (k u : Z) : 0 < u -> nearest_even (k * u) u = k * u.
Proof.
  intros Hu. unfold nearest_even.
  rewrite Z.mod_mul, Z.div_mul by lia.
  destruct (Z.ltb_spec (2 * 0) u); [reflexivity | lia].
Qed.

Lemma ulp_binade (m e : Z) :
  52 <= e -> 2 ^ e <= m < 2 ^ (e + 1) -> ulp m = 2 ^ (e - 52).
Proof.
  intros He Hm. unfold ulp. f_equal. f_equal.
  apply Z.log2_unique; [lia |]. exact Hm.
Qed.

Lemma round_mag_idem (a : Z) : 0 <= a -> round_mag (round_mag a) = round_mag a.
Proof.
  intros Ha. destruct (Z_le_gt_dec a EXACT_LIMIT) as [Hs | Hl].
  - unfold round_mag. destruct (Z.leb_spec a EXACT_LIMIT); [| lia].
    destruct (Z.leb_spec a EXACT_LIMIT); [reflexivity | lia].
  - assert (Hl' : EXACT_LIMIT < a) by lia.
    destruct (binade a Hl') as [Hu [Hlo Hhi]].
    pose proof (round_mag_bounds a Hl') as [Hm1 Hm2].
    assert (Hpos : 0 < a) by lia.
    assert (He : 53 <= Z.log2 a).
    { apply Z.log2_le_pow2; [exact Hpos |]. rewrite <- limit_pow. lia. }
    set (m := round_mag a) in *.
    assert (Hk : exists k, m = k * ulp a).
    { unfold m, round_mag. destruct (Z.leb_spec a EXACT_LIMIT); [lia |].
      destruct (nearest_even_bounds a (ulp a) ltac:(lia) ltac:(lia)) as [_ [E | E]];
        rewrite E; eexists; reflexivity. }
    destruct Hk as (k & Hk).
    unfold round_mag at 1. destruct (Z.leb_spec m EXACT_LIMIT); [reflexivity |].
    assert (E52 : 2 ^ Z.log2 a = 4503599627370496 * ulp a).
    { unfold ulp. change 4503599627370496 with (2 ^ 52).
      rewrite <- Z.pow_add_r by lia. f_equal. lia. }
    assert (E53 : 2 ^ (Z.log2 a + 1) = EXACT_LIMIT * ulp a).
    { unfold ulp. rewrite limit_pow.
      rewrite <- Z.pow_add_r by lia. f_equal. lia. }
    destruct (Z.eq_dec m (EXACT_LIMIT * ulp a)) as [Etop | Ntop].
    + assert (Hum : ulp m = 2 * ulp a).
      { rewrite (ulp_binade m (Z.log2 a + 1)).
        - unfold ulp.
          replace (Z.log2 a + 1 - 52) with (1 + (Z.log2 a - 52)) by lia.
          rewrite Z.pow_add_r by lia. reflexivity.
        - lia.
        - rewrite E53, Etop. split; [lia |].
          replace (Z.log2 a + 1 + 1) with (1 + (Z.log2 a + 1)) by lia.
          rewrite Z.pow_add_r, E53 by lia. change (2 ^ 1) with 2.
          unfold EXACT_LIMIT in *. nia. }
      rewrite Hum.
      replace m with (4503599627370496 * (2 * ulp a))
        by (rewrite Etop; unfold EXACT_LIMIT; lia).
      apply nearest_even_multiple. lia.
    + assert (Hum : ulp m = ulp a).
      { rewrite (ulp_binade m (Z.log2 a)); [reflexivity | lia |].
        rewrite E52, E53. lia. }
      rewrite Hum, Hk. apply nearest_even_multiple. lia.
Qed.

Lemma round_mag_zero (a : Z) : 0 <= a -> (round_mag a = 0 <-> a = 0).
Proof.
  intros Ha. split.
  - intros H. destruct (Z_le_gt_dec a EXACT_LIMIT) as [Hs | Hl].
    + unfold round_mag in H. destruct (Z.leb_spec a EXACT_LIMIT); lia.
    + pose proof (round_mag_bounds a ltac:(lia)) as [Hm _].
      destruct (binade a ltac:(lia)) as [Hu _]. lia.
  - intros ->. reflexivity.
Qed.

Lemma round64_idem (y : Z) : round64 (round64 y) = round64 y.
Proof.
  unfold round64.
  pose proof (round_mag_nonneg (Z.abs y) (Z.abs_nonneg y)) as Hn.
  pose proof (round_mag_zero (Z.abs y) (Z.abs_nonneg y)) as Hz.
  destruct (Z.lt_trichotomy y 0) as [Hy | [-> | Hy]].
  - rewrite (Z.sgn_neg y Hy).
    assert (0 < round_mag (Z.abs y)) by lia.
    rewrite Z.sgn_neg by lia.
    replace (Z.abs (-1 * round_mag (Z.abs y))) with (round_mag (Z.abs y)) by lia.
    rewrite round_mag_idem by lia. reflexivity.
  - reflexivity.
  - rewrite (Z.sgn_pos y Hy).
    assert (0 < round_mag (Z.abs y)) by lia.
    rewrite Z.sgn_pos by lia.
    replace (Z.abs (1 * round_mag (Z.abs y))) with (round_mag (Z.abs y)) by lia.
    rewrite round_mag_idem by lia. reflexivity.
Qed.

Lemma round64_max : round64 (MAX_VALUE + 1) = MAX_VALUE /\ round64 (- MAX_VALUE - 1) = - MAX_VALUE.
Proof. split; vm_compute; reflexivity. Qed.

Lemma is_number_round64 (y : Z) :
  Z.abs y <= MAX_VALUE + 1 -> is_number (round64 y) = true.
Proof.
  intros Hy. unfold is_number. rewrite round64_idem, Z.eqb_refl. simpl.
  apply Z.leb_le. destruct round64_max as [Hhi Hlo].
  pose proof (round64_mono y (MAX_VALUE + 1) ltac:(lia)).
  pose proof (round64_mono (- MAX_VALUE - 1) y ltac:(lia)).
  lia.
Qed.

Set Implicit Arguments.

(* ------------------------------------------------------------------ *)
(** ** [++] and [--] *)

Lemma decr_exact (x : Z) :
  0 < x -> x <= EXACT_LIMIT -> decr x = x - 1.
Proof. intros H0 H1. unfold decr. apply round64_exact. lia. Qed.

Lemma incr_exact (x : Z) :
  - EXACT_LIMIT <= x -> x < EXACT_LIMIT -> incr x = x + 1.
Proof. intros H0 H1. unfold incr. apply round64_exact. lia. Qed.

Lemma decr_nonneg (x : Z) : 0 < x -> 0 <= decr x.
Proof.
  intros H. unfold decr.
  change 0 with (round64 0) at 1. apply round64_mono. lia.
Qed.

Lemma incr_pos (x : Z) : 0 <= x -> 1 <= incr x.
Proof.
  intros H. unfold incr.
  change 1 with (round64 1) at 1. apply round64_mono. lia.
Qed.

(** [x++] does not take the counter below a number it was not below. *)
Lemma incr_floor (floor x : Z) :
  round64 floor = floor -> floor <= x -> floor <= incr x.
Proof.
  intros Hf H. unfold incr. rewrite <- Hf at 1. apply round64_mono. lia.
Qed.

Lemma is_number_fixed (x : Z) : is_number x = true -> round64 x = x.
Proof.
  unfold is_number. intros H. apply andb_prop in H. destruct H as [H _].
  apply Z.eqb_eq. exact H.
Qed.

Lemma is_number_bound (x : Z) : is_number x = true -> Z.abs x <= MAX_VALUE.
Proof.
  unfold is_number. intros H. apply andb_prop in H. destruct H as [_ H].
  apply Z.leb_le. exact H.
Qed.

(** The numbers are closed under [++] and [--]. *)
Lemma is_number_incr (x : Z) : is_number x = true -> is_number (incr x) = true.
Proof.
  intros H. apply is_number_bound in H. unfold incr.
  apply is_number_round64. lia.
Qed.

Lemma is_number_decr (x : Z) : is_number x = true -> is_number (decr x) = true.
Proof.
  intros H. apply is_number_bound in H. unfold decr.
  apply is_number_round64. lia.
Qed.

Lemma is_number_min0 (x : Z) :
  is_number x = true -> round64 (Z.min x 0) = Z.min x 0.
Proof.
  intros H. apply is_number_fixed in H.
  destruct (Z.min_spec x 0) as [[_ E] | [_ E]]; rewrite E;
    [exact H | reflexivity].
Qed.

Lemma incr_times_succ (k : nat) (x : Z) :
  incr_times (S k) x = incr_times k (incr x).
Proof. unfold incr_times. apply Nat.iter_succ_r. Qed.

(** Counting up from at least [- 2^53] is exact up to [2^53] and stays
    there. *)
Lemma incr_times_saturates (k : nat) (x : Z) :
  - EXACT_LIMIT <= x -> x <= EXACT_LIMIT ->
  incr_times k x = Z.min (x + Z.of_nat k) EXACT_LIMIT.
Proof.
  intros Hlo Hhi. induction k as [| k IH].
  - unfold incr_times. simpl. lia.
  - change (incr_times (S k) x) with (incr (incr_times k x)). rewrite IH.
    destruct (Z_lt_le_dec (x + Z.of_nat k) EXACT_LIMIT) as [Hs | Hs].
    + rewrite Z.min_l by lia. rewrite incr_exact by lia. lia.
    + rewrite Z.min_r by lia. rewrite Z.min_r by lia. reflexivity.
Qed.

Lemma incr_times_exact (k : nat) (x : Z) :
  - EXACT_LIMIT <= x -> x + Z.of_nat k <= EXACT_LIMIT ->
  incr_times k x = x + Z.of_nat k.
Proof.
  intros Hlo Hhi. rewrite incr_times_saturates by lia. lia.
Qed.

(* ------------------------------------------------------------------ *)
(** ** Equations of the two methods *)

Lemma semaphore_eta (s : Semaphore) :
  {| capacityLeft := capacityLeft s; queue := queue s |} = s.
Proof. destruct s; reflexivity. Qed.

Lemma down_available (fresh : resolver) (s : Semaphore) :
  0 < capacityLeft s ->
  down fresh s
  = (Undefined,
     {| capacityLeft := decr (capacityLeft s); queue := queue s |}).
Proof.
  intros H. unfold down.
  destruct (Z.ltb_spec 0 (capacityLeft s)); [reflexivity | lia].
Qed.

Lemma down_exhausted (fresh : resolver) (s : Semaphore) :
  capacityLeft s <= 0 ->
  down fresh s
  = (Pending fresh,
     {| capacityLeft := capacityLeft s; queue := queue s ++ [fresh] |}).
Proof.
  intros H. unfold down, push.
  destruct (Z.ltb_spec 0 (capacityLeft s)); [lia | reflexivity].
Qed.

Lemma up_nobody_waiting (s : Semaphore) :
  queue s = [] ->
  up s = Ok (None, {| capacityLeft := incr (capacityLeft s); queue := [] |}).
Proof. intros H. unfold up. rewrite H. reflexivity. Qed.

Lemma up_handoff (s : Semaphore) (r : resolver) (rest : list resolver) :
  queue s = r :: rest ->
  up s = Ok (Some r, {| capacityLeft := capacityLeft s; queue := rest |}).
Proof. intros H. unfold up. rewrite H. reflexivity. Qed.

(** [up] never throws: [shift] is only reached on a non-empty array. *)
Lemma up_total (s : Semaphore) :
  exists next s', up s = Ok (next, s').
Proof.
  destruct (queue s) as [| r rest] eqn:Hq.
  - rewrite (up_nobody_waiting s Hq). eauto.
  - rewrite (up_handoff s Hq). eauto.
Qed.

(* ------------------------------------------------------------------ *)
(** ** One call *)

Lemma step_acquire (fresh : resolver) (s : Semaphore) :
  0 < capacityLeft s ->
  step (Down fresh) s
  = Ok (Acquired,
        {| capacityLeft := decr (capacityLeft s); queue := queue s |}).
Proof. intros H. unfold step. rewrite (down_available fresh s H). reflexivity. Qed.

Lemma step_suspend (fresh : resolver) (s : Semaphore) :
  capacityLeft s <= 0 ->
  step (Down fresh) s
  = Ok (Suspended fresh,
        {| capacityLeft := capacityLeft s; queue := queue s ++ [fresh] |}).
Proof. intros H. unfold step. rewrite (down_exhausted fresh s H). reflexivity. Qed.

Lemma step_release (s : Semaphore) :
  queue s = [] ->
  step Up s
  = Ok (Released, {| capacityLeft := incr (capacityLeft s); queue := [] |}).
Proof. intros H. unfold step. rewrite (up_nobody_waiting s H). reflexivity. Qed.

Lemma step_resume (s : Semaphore) (r : resolver) (rest : list resolver) :
  queue s = r :: rest ->
  step Up s = Ok (Resumed r, {| capacityLeft := capacityLeft s; queue := rest |}).
Proof. intros H. unfold step. rewrite (up_handoff s H). reflexivity. Qed.

Lemma step_stepped (o : op) (s : Semaphore) :
  exists e s', step o s = Ok (e, s') /\ stepped s o e s'.
Proof.
  destruct o as [fresh |].
  - destruct (Z.lt_ge_cases 0 (capacityLeft s)) as [Hc | Hc].
    + eexists _, _. split; [apply step_acquire; assumption |].
      constructor; assumption.
    + eexists _, _. split; [apply step_suspend; assumption |].
      constructor; assumption.
  - destruct (queue s) as [| r rest] eqn:Hq.
    + eexists _, _. split; [apply step_release; assumption |].
      constructor; assumption.
    + eexists _, _. split; [apply (step_resume s Hq) |].
      constructor; assumption.
Qed.

(* ------------------------------------------------------------------ *)
(** ** Sequences of calls *)

Lemma run_cons (o : op) (rest : list op) (s s1 s2 : Semaphore)
      (e : event) (es : list event) :
  step o s = Ok (e, s1) ->
  run rest s1 = Ok (es, s2) ->
  run (o :: rest) s = Ok (e :: es, s2).
Proof. intros H1 H2. simpl. rewrite H1. simpl. rewrite H2. reflexivity. Qed.

Lemma run_app (ops1 ops2 : list op) (s s1 s2 : Semaphore)
      (es1 es2 : list event) :
  run ops1 s = Ok (es1, s1) ->
  run ops2 s1 = Ok (es2, s2) ->
  run (ops1 ++ ops2) s = Ok (es1 ++ es2, s2).
Proof.
  revert s es1. induction ops1 as [| o ops1 IH]; intros s es1 H1 H2.
  - simpl in H1. injection H1 as <- <-. exact H2.
  - simpl in H1.
    destruct (step o s) as [[e sa] | err] eqn:Hs; [| discriminate].
    simpl in H1.
    destruct (run ops1 sa) as [[es sb] | err] eqn:Hr; [| discriminate].
    simpl in H1. injection H1 as <- <-.
    simpl app. apply run_cons with (s1 := sa); [assumption |].
    apply IH; [assumption | exact H2].
Qed.

Lemma run_ran (ops : list op) (s : Semaphore) :
  exists es s', run ops s = Ok (es, s') /\ ran s ops es s'.
Proof.
  revert s. induction ops as [| o ops IH]; intros s.
  - exists [], s. split; [reflexivity | constructor].
  - destruct (step_stepped o s) as (e & s1 & Hs & Hst).
    destruct (IH s1) as (es & s2 & Hr & Hran).
    exists (e :: es), s2. split.
    + apply run_cons with (s1 := s1); assumption.
    + econstructor; eassumption.
Qed.

Lemma run_ok_ran (ops : list op) (s s' : Semaphore) (es : list event) :
  run ops s = Ok (es, s') -> ran s ops es s'.
Proof.
  intros H. destruct (run_ran ops s) as (es0 & s0 & Hr & Hran).
  rewrite Hr in H. injection H as <- <-. exact Hran.
Qed.

(** [n] releases in a row: the first waiters are resumed in queue order,
    the releases left over go to the counter, one [++] each. *)
Lemma run_ups (n : nat) (c : Z) (q : list resolver) :
  run (repeat Up n) {| capacityLeft := c; queue := q |}
  = Ok (map Resumed (firstn n q) ++ repeat Released (n - length q),
        {| capacityLeft := incr_times (n - length q) c; queue := skipn n q |}).
Proof.
  revert c q. induction n as [| n IH]; intros c q.
  - reflexivity.
  - destruct q as [| r rest].
    + apply run_cons with (s1 := {| capacityLeft := incr c; queue := [] |}).
      * apply step_release. reflexivity.
      * rewrite IH. simpl length. rewrite firstn_nil, skipn_nil, !Nat.sub_0_r.
        rewrite incr_times_succ. reflexivity.
    + simpl repeat. simpl firstn. simpl skipn. simpl length. simpl Nat.sub.
      simpl map. simpl app.
      apply run_cons with (s1 := {| capacityLeft := c; queue := rest |}).
      * apply (@step_resume {| capacityLeft := c; queue := r :: rest |} r rest).
        reflexivity.
      * apply IH.
Qed.

Lemma run_ups_nobody_waiting (n : nat) (c : Z) :
  run (repeat Up n) {| capacityLeft := c; queue := [] |}
  = Ok (repeat Released n, {| capacityLeft := incr_times n c; queue := [] |}).
Proof.
  rewrite run_ups. simpl length.
  rewrite Nat.sub_0_r, firstn_nil, skipn_nil. reflexivity.
Qed.

(** Acquisitions on an exhausted semaphore queue up in call order. *)
Lemma run_downs_exhausted (rs : list resolver) (c : Z) (q : list resolver) :
  c <= 0 ->
  run (map Down rs) {| capacityLeft := c; queue := q |}
  = Ok (map Suspended rs, {| capacityLeft := c; queue := q ++ rs |}).
Proof.
  intros Hc. revert q. induction rs as [| r rs IH]; intros q.
  - simpl. rewrite app_nil_r. reflexivity.
  - simpl map.
    apply run_cons with (s1 := {| capacityLeft := c; queue := q ++ [r] |}).
    + apply (@step_suspend r {| capacityLeft := c; queue := q |}). exact Hc.
    + rewrite IH, <- app_assoc. reflexivity.
Qed.

(** Acquisitions covered by the counter all return at once, and up to
    [2^53] each takes exactly one unit. *)
Lemma run_downs_available (rs : list resolver) (c : Z) (q : list resolver) :
  Z.of_nat (length rs) <= c ->
  c <= EXACT_LIMIT ->
  run (map Down rs) {| capacityLeft := c; queue := q |}
  = Ok (repeat Acquired (length rs),
        {| capacityLeft := c - Z.of_nat (length rs); queue := q |}).
Proof.
  revert c. induction rs as [| r rs IH]; intros c Hc Hl.
  - simpl. rewrite Z.sub_0_r. reflexivity.
  - simpl length in *. simpl map. simpl repeat.
    apply run_cons with (s1 := {| capacityLeft := c - 1; queue := q |}).
    + rewrite (@step_acquire r {| capacityLeft := c; queue := q |})
        by (simpl; lia).
      cbn [capacityLeft queue]. rewrite decr_exact by lia. reflexivity.
    + rewrite IH by lia. do 3 f_equal. lia.
Qed.

Lemma resumed_app (es1 es2 : list event) :
  resumed (es1 ++ es2) = resumed es1 ++ resumed es2.
Proof.
  induction es1 as [| e es1 IH]; [reflexivity |].
  destruct e; simpl; rewrite IH; reflexivity.
Qed.

Lemma resumed_map_Resumed (rs : list resolver) :
  resumed (map Resumed rs) = rs.
Proof. induction rs as [| r rs IH]; simpl; [| rewrite IH]; reflexivity. Qed.

Lemma resumed_repeat_Released (n : nat) :
  resumed (repeat Released n) = [].
Proof. induction n as [| n IH]; simpl; [| rewrite IH]; reflexivity. Qed.

Lemma firstn_whole {A : Type} (n : nat) (l : list A) :
  firstn n l = l <-> (length l <= n)%nat.
Proof.
  split.
  - intros H. apply (f_equal (@length A)) in H.
    rewrite length_firstn in H. lia.
  - apply firstn_all2.
Qed.

(* ------------------------------------------------------------------ *)
(** ** Invariants of a run *)

(** A call whose arithmetic stays within [2^53] in magnitude moves exactly
    one unit. *)
Lemma stepped_exact (s s' : Semaphore) (o : op) (e : event) :
  stepped s o e s' ->
  - EXACT_LIMIT <= capacityLeft s ->
  capacityLeft s + (if is_up o then 1 else 0) <= EXACT_LIMIT ->
  balance s' = balance s + (if is_down o then -1 else 1)
  /\ (if is_grant e then 1 else 0) + capacityLeft s'
     = capacityLeft s + (if is_up o then 1 else 0)
  /\ - EXACT_LIMIT <= capacityLeft s'.
Proof.
  intros H Hlo Hhi. unfold balance.
  destruct H as [fresh Hc | fresh Hc | Hq | r rest Hq];
    unfold is_up, is_grant, is_down, negb in *;
    cbn [capacityLeft queue] in *.
  - rewrite decr_exact by lia. unfold EXACT_LIMIT in *. lia.
  - rewrite length_app. simpl length. lia.
  - rewrite incr_exact by lia. rewrite Hq. simpl length.
    unfold EXACT_LIMIT in *. lia.
  - rewrite Hq. simpl length. lia.
Qed.

Lemma ran_exact (s s' : Semaphore) (ops : list op) (es : list event) :
  ran s ops es s' ->
  - EXACT_LIMIT <= capacityLeft s ->
  capacityLeft s + Z.of_nat (count_ups ops) <= EXACT_LIMIT ->
  balance s' = balance s - Z.of_nat (count_downs ops) + Z.of_nat (count_ups ops)
  /\ Z.of_nat (granted es) + capacityLeft s'
     = capacityLeft s + Z.of_nat (count_ups ops).
Proof.
  unfold count_downs, count_ups, granted.
  induction 1 as [s | s o e s1 ops es s2 Hst Hran IH]; intros Hlo Hhi.
  - simpl. lia.
  - cbn [filter] in *.
    assert (Hup : capacityLeft s + (if is_up o then 1 else 0) <= EXACT_LIMIT).
    { destruct (is_up o); cbn [length] in Hhi; lia. }
    destruct (stepped_exact Hst Hlo Hup) as (Hb & Hg & Hlo1).
    unfold is_up in *.
    destruct (is_down o); cbn [negb] in *; destruct (is_grant e);
      cbn [length] in *; destruct IH as [IH1 IH2]; lia.
Qed.

Lemma stepped_bounded_wait (floor : Z) (s s' : Semaphore) (o : op) (e : event) :
  floor <= 0 -> round64 floor = floor ->
  stepped s o e s' -> bounded_wait floor s -> bounded_wait floor s'.
Proof.
  intros Hf Hfix H [Hlo Hq0]. unfold bounded_wait.
  destruct H as [fresh Hc | fresh Hc | Hq | r rest Hq]; cbn [capacityLeft queue].
  - pose proof (decr_nonneg Hc).
    split; [lia |]. intros Hne. specialize (Hq0 Hne). lia.
  - split; [assumption | intros _; assumption].
  - split; [apply incr_floor; assumption | congruence].
  - split; [assumption |]. intros _. apply Hq0. rewrite Hq. discriminate.
Qed.

Lemma ran_bounded_wait (floor : Z) (s s' : Semaphore) (ops : list op)
      (es : list event) :
  floor <= 0 -> round64 floor = floor ->
  ran s ops es s' -> bounded_wait floor s -> bounded_wait floor s'.
Proof.
  intros Hf Hfix. induction 1 as [s | s o e s1 ops es s2 Hst Hran IH]; intros Hb.
  - exact Hb.
  - apply IH. exact (stepped_bounded_wait Hf Hfix Hst Hb).
Qed.

Lemma reachable_bounded_wait (capacity : Z) (s : Semaphore) :
  reachable capacity s -> bounded_wait (Z.min capacity 0) s.
Proof.
  intros (Hnum & ops & es & Hrun). apply run_ok_ran in Hrun.
  apply (ran_bounded_wait (Z.le_min_r capacity 0) (is_number_min0 _ Hnum) Hrun).
  split; simpl; [apply Z.le_min_l | intros H; contradiction H; reflexivity].
Qed.

(** From a capacity of zero or more the counter never becomes negative. *)
Lemma constructed_nonneg (capacity : Z) (ops : list op) (es : list event)
      (s : Semaphore) :
  0 <= capacity ->
  run ops (constructor capacity) = Ok (es, s) ->
  0 <= capacityLeft s.
Proof.
  intros HC Hrun. apply run_ok_ran in Hrun.
  assert (Hb : bounded_wait 0 s).
  { apply (@ran_bounded_wait 0 _ _ _ _ (Z.le_refl 0) eq_refl Hrun).
    split; simpl; [exact HC | intros H; contradiction H; reflexivity]. }
  exact (proj1 Hb).
Qed.

(** The counter of a reachable state is a number. *)
Lemma ran_is_number (s s' : Semaphore) (ops : list op) (es : list event) :
  ran s ops es s' ->
  is_number (capacityLeft s) = true -> is_number (capacityLeft s') = true.
Proof.
  induction 1 as [s | s o e s1 ops es s2 Hst Hran IH]; intros Hn; [exact Hn |].
  apply IH. destruct Hst as [fresh Hc | fresh Hc | Hq | r rest Hq];
    cbn [capacityLeft];
    [apply is_number_decr | | apply is_number_incr |]; exact Hn.
Qed.

Lemma reachable_is_number (capacity : Z) (s : Semaphore) :
  reachable capacity s -> is_number (capacityLeft s) = true.
Proof.
  intros (Hnum & ops & es & Hrun). apply run_ok_ran in Hrun.
  exact (ran_is_number Hrun Hnum).
Qed.

(* ------------------------------------------------------------------ *)
(** ** The specification's claims *)

(** C1, as stated, fails: with [capacityLeft = 2^53 + 2] a [down] leaves
    [2^53], two less and not one ([2^53 + 1] is no binary64 value and the
    tie goes to the even significand). *)
Lemma down_takes_two :
  down 0 {| capacityLeft := 9007199254740994; queue := [] |}
  = (Undefined, {| capacityLeft := 9007199254740992; queue := [] |})
  /\ 9007199254740992 <> 9007199254740994 - 1.
Proof. split; [reflexivity | discriminate]. Qed.

(** C1, amended. In every state, [down] with [capacityLeft > 0] leaves the
    queue as it is and returns at once ([undefined], nothing to wait for),
    and lowers [capacityLeft] by exactly one when [capacityLeft <= 2^53];
    with [capacityLeft <= 0] it leaves [capacityLeft] as it is, appends
    exactly one continuation, the caller's, at the end of the queue and
    returns the pending promise. *)
Theorem down_spec (fresh : resolver) (s : Semaphore) :
  (0 < capacityLeft s ->
   fst (down fresh s) = Undefined /\ queue (snd (down fresh s)) = queue s)
  /\ (0 < capacityLeft s -> capacityLeft s <= EXACT_LIMIT ->
      down fresh s
      = (Undefined, {| capacityLeft := capacityLeft s - 1; queue := queue s |}))
  /\ (capacityLeft s <= 0 ->
      down fresh s
      = (Pending fresh,
         {| capacityLeft := capacityLeft s; queue := queue s ++ [fresh] |})).
Proof.
  split; [| split].
  - intros H. rewrite (down_available fresh s H). split; reflexivity.
  - intros H Hl. rewrite (down_available fresh s H), decr_exact by assumption.
    reflexivity.
  - intros H. apply down_exhausted; assumption.
Qed.

Lemma down_spec_witness :
  (fst (down 9 {| capacityLeft := 9007199254740994; queue := [] |}) = Undefined
   /\ queue (snd (down 9 {| capacityLeft := 9007199254740994; queue := [] |}))
      = [])
  /\ down 9 {| capacityLeft := 2; queue := [] |}
     = (Undefined, {| capacityLeft := 2 - 1; queue := [] |})
  /\ down 9 {| capacityLeft := 0; queue := [4%nat] |}
     = (Pending 9, {| capacityLeft := 0; queue := [4%nat; 9%nat] |}).
Proof.
  split; [| split].
  - apply (proj1 (down_spec 9 {| capacityLeft := 9007199254740994;
                                 queue := [] |})).
    simpl. lia.
  - apply (proj1 (proj2 (down_spec 9 {| capacityLeft := 2; queue := [] |})));
      simpl; unfold EXACT_LIMIT; lia.
  - apply (proj2 (proj2 (down_spec 9 {| capacityLeft := 0; queue := [4%nat] |}))).
    simpl. lia.
Defined.

(** C2, as stated, fails: with an empty queue and [capacityLeft = 2^53] an
    [up] leaves [capacityLeft] at [2^53]. *)
Lemma up_adds_nothing :
  up {| capacityLeft := 9007199254740992; queue := [] |}
  = Ok (None, {| capacityLeft := 9007199254740992; queue := [] |}).
Proof. reflexivity. Qed.

(** C2, amended. In every state, [up] with an empty queue leaves the queue
    empty and resumes nobody, and raises [capacityLeft] by exactly one when
    [- 2^53 <= capacityLeft < 2^53]; with a non-empty queue it removes exactly
    the front continuation, calls it, and leaves [capacityLeft] as it is. *)
Theorem up_spec (s : Semaphore) :
  (queue s = [] ->
   exists c, up s = Ok (None, {| capacityLeft := c; queue := [] |}))
  /\ (queue s = [] ->
      - EXACT_LIMIT <= capacityLeft s -> capacityLeft s < EXACT_LIMIT ->
      up s = Ok (None, {| capacityLeft := capacityLeft s + 1; queue := [] |}))
  /\ (forall (r : resolver) (rest : list resolver),
        queue s = r :: rest ->
        up s = Ok (Some r, {| capacityLeft := capacityLeft s; queue := rest |})).
Proof.
  split; [| split].
  - intros H. rewrite (up_nobody_waiting s H). eexists. reflexivity.
  - intros H Hlo Hhi. rewrite (up_nobody_waiting s H), incr_exact by assumption.
    reflexivity.
  - intros r rest. apply up_handoff.
Qed.

Lemma up_spec_witness :
  (exists c,
      up {| capacityLeft := 9007199254740992; queue := [] |}
      = Ok (None, {| capacityLeft := c; queue := [] |}))
  /\ up {| capacityLeft := 0; queue := [] |}
     = Ok (None, {| capacityLeft := 0 + 1; queue := [] |})
  /\ up {| capacityLeft := 0; queue := [4%nat; 9%nat] |}
     = Ok (Some 4%nat, {| capacityLeft := 0; queue := [9%nat] |}).
Proof.
  split; [| split].
  - apply (proj1 (up_spec {| capacityLeft := 9007199254740992; queue := [] |})).
    reflexivity.
  - apply (proj1 (proj2 (up_spec {| capacityLeft := 0; queue := [] |})));
      simpl; unfold EXACT_LIMIT; try lia; reflexivity.
  - apply (proj2 (proj2 (up_spec {| capacityLeft := 0; queue := [4%nat; 9%nat] |}))).
    reflexivity.
Defined.

(** C3, as stated, fails: a semaphore constructed with capacity [-1] reaches,
    by one [down], a state whose queue holds a waiter while [capacityLeft]
    is [-1], not [0]. *)
Lemma waiter_below_zero :
  reachable (-1) {| capacityLeft := -1; queue := [0%nat] |}
  /\ ~ waiting_only_at_zero {| capacityLeft := -1; queue := [0%nat] |}.
Proof.
  split.
  - split; [reflexivity |]. exists [Down 0], [Suspended 0]. reflexivity.
  - unfold waiting_only_at_zero. simpl. intros H.
    assert (Hne : [0%nat] <> @nil resolver) by discriminate.
    specialize (H Hne). discriminate.
Qed.

(** C3, amended. In every state reachable from a semaphore constructed with
    capacity [capacity], a non-empty queue means [capacityLeft <= 0] (no task
    waits while capacity sits unclaimed), and [capacityLeft] is then exactly
    [0] when the semaphore was constructed with a capacity of zero or more. *)
Theorem waiting_means_no_capacity (capacity : Z) (s : Semaphore) :
  reachable capacity s ->
  queue s <> [] ->
  capacityLeft s <= 0 /\ (0 <= capacity -> capacityLeft s = 0).
Proof.
  intros Hr Hne.
  destruct (reachable_bounded_wait Hr) as [Hlo Hq]. specialize (Hq Hne).
  split; [assumption | intros HC; lia].
Qed.

Lemma waiting_means_no_capacity_witness :
  capacityLeft {| capacityLeft := 0; queue := [5%nat] |} <= 0
  /\ (0 <= 1 -> capacityLeft {| capacityLeft := 0; queue := [5%nat] |} = 0).
Proof.
  apply (@waiting_means_no_capacity 1 {| capacityLeft := 0; queue := [5%nat] |}).
  - split; [reflexivity |].
    exists [Down 0; Down 5], [Acquired; Suspended 5]. reflexivity.
  - discriminate.
Defined.

(** C4. With [N] tasks in the queue, each [up] resumes exactly one waiter,
    the one at the front; [n] calls of [up] resume the first [n] waiters in
    queue order, so all [N] are resumed exactly when [n >= N]; and the queue
    order is the order in which the suspended [down] calls were made. *)
Theorem up_fifo (s : Semaphore) :
  (forall (r : resolver) (rest : list resolver),
      queue s = r :: rest ->
      step Up s = Ok (Resumed r, {| capacityLeft := capacityLeft s; queue := rest |}))
  /\ (forall n : nat,
        exists es s',
          run (repeat Up n) s = Ok (es, s')
          /\ resumed es = firstn n (queue s)
          /\ queue s' = skipn n (queue s)
          /\ (resumed es = queue s <-> (length (queue s) <= n)%nat))
  /\ (forall (rs : list resolver) (n : nat),
        capacityLeft s <= 0 ->
        exists es s',
          run (map Down rs ++ repeat Up n) s = Ok (map Suspended rs ++ es, s')
          /\ resumed es = firstn n (queue s ++ rs)).
Proof.
  split; [| split].
  - intros r rest Hq. apply step_resume. exact Hq.
  - intros n. destruct s as [c q]. simpl queue.
    eexists _, _. split; [apply run_ups |].
    rewrite resumed_app, resumed_map_Resumed, resumed_repeat_Released, app_nil_r.
    split; [reflexivity |]. split; [reflexivity |]. apply firstn_whole.
  - intros rs n Hc. destruct s as [c q]. simpl in *.
    eexists _, _. split.
    + eapply run_app; [apply run_downs_exhausted; exact Hc | apply run_ups].
    + rewrite resumed_app, resumed_map_Resumed, resumed_repeat_Released.
      apply app_nil_r.
Qed.

Lemma up_fifo_witness :
  step Up {| capacityLeft := 0; queue := [1; 2; 3]%nat |}
  = Ok (Resumed 1, {| capacityLeft := 0; queue := [2; 3]%nat |})
  /\ exists es s',
      run (map Down [1; 2; 3]%nat ++ repeat Up 3)
          {| capacityLeft := 0; queue := [] |}
      = Ok (map Suspended [1; 2; 3]%nat ++ es, s')
      /\ resumed es = firstn 3 ([] ++ [1; 2; 3]%nat).
Proof.
  split.
  - apply (proj1 (up_fifo {| capacityLeft := 0; queue := [1; 2; 3]%nat |})
             1%nat [2; 3]%nat).
    reflexivity.
  - apply (proj2 (proj2 (up_fifo {| capacityLeft := 0; queue := [] |}))
             [1; 2; 3]%nat 3%nat).
    simpl. lia.
Defined.

(** C5, as stated, fails: on a semaphore constructed with capacity
    [2^53 - 1], two calls of [up] leave [capacityLeft] at [2^53], one more
    and not two. *)
Lemma second_release_lost :
  run [Up; Up] (constructor 9007199254740991)
  = Ok ([Released; Released],
        {| capacityLeft := 9007199254740992; queue := [] |})
  /\ 9007199254740992 <> 9007199254740991 + 2.
Proof. split; [reflexivity | discriminate]. Qed.

(** C5, amended. On a semaphore whose queue is empty, [n] calls of [up] in a
    row, for any [n >= 0], throw nothing and leave the queue empty, whatever
    the capacity it was constructed with; they raise [capacityLeft] by
    exactly [n] when [capacityLeft >= - 2^53] and [capacityLeft + n <= 2^53]. *)
Theorem over_release (n : nat) (s : Semaphore) :
  queue s = [] ->
  (exists c,
      run (repeat Up n) s
      = Ok (repeat Released n, {| capacityLeft := c; queue := [] |}))
  /\ (- EXACT_LIMIT <= capacityLeft s ->
      capacityLeft s + Z.of_nat n <= EXACT_LIMIT ->
      run (repeat Up n) s
      = Ok (repeat Released n,
            {| capacityLeft := capacityLeft s + Z.of_nat n; queue := [] |})).
Proof.
  destruct s as [c q]. cbn [queue capacityLeft]. intros ->.
  rewrite run_ups_nobody_waiting. split.
  - eexists. reflexivity.
  - intros Hlo Hhi. rewrite incr_times_exact by assumption. reflexivity.
Qed.

Lemma over_release_witness :
  run (repeat Up 5) (constructor 2)
  = Ok (repeat Released 5,
        {| capacityLeft := capacityLeft (constructor 2) + Z.of_nat 5;
           queue := [] |}).
Proof.
  apply (proj2 (@over_release 5 (constructor 2) eq_refl));
    simpl; unfold EXACT_LIMIT; lia.
Defined.

(** C6, as stated, fails: on a semaphore constructed with capacity [-1], one
    call of [up] is not enough: the [down] that follows it still suspends. *)
Lemma one_release_not_enough :
  run [Up; Down 0] (constructor (-1))
  = Ok ([Released; Suspended 0], {| capacityLeft := 0; queue := [0%nat] |})
  /\ immediate_after (-1) 1 0 = false
  /\ ~ releases_required (-1) 1.
Proof.
  split; [reflexivity |]. split; [reflexivity |].
  intros H. destruct (H 1%nat 0%nat) as [_ H1].
  specialize (H1 (le_n 1)). vm_compute in H1. discriminate.
Qed.

(** C6, amended. For every [n] with [0 < n <= 2^53], [constructor (-n)] is
    accepted as it is ([capacityLeft = -n], empty queue) and exactly [n + 1]
    calls of [up] (no waiter present) are needed before a [down] returns at
    once: after [m] of them [capacityLeft] is [m - n] (as long as that is at
    most [2^53]), which is positive from [m = n + 1] on. *)
Theorem negative_capacity_releases (n : nat) :
  (0 < n)%nat ->
  Z.of_nat n <= EXACT_LIMIT ->
  constructor (- Z.of_nat n) = {| capacityLeft := - Z.of_nat n; queue := [] |}
  /\ (forall m : nat,
        Z.of_nat m - Z.of_nat n <= EXACT_LIMIT ->
        run (repeat Up m) (constructor (- Z.of_nat n))
        = Ok (repeat Released m,
              {| capacityLeft := Z.of_nat m - Z.of_nat n; queue := [] |}))
  /\ releases_required (- Z.of_nat n) (n + 1).
Proof.
  intros Hn Hl.
  split; [reflexivity |]. split.
  - intros m Hm. unfold constructor. rewrite run_ups_nobody_waiting.
    rewrite incr_times_exact by lia. do 3 f_equal. lia.
  - intros m fresh. unfold immediate_after, constructor.
    rewrite run_ups_nobody_waiting.
    rewrite incr_times_saturates by lia.
    unfold down. cbn [capacityLeft].
    destruct (Z.ltb_spec 0 (Z.min (- Z.of_nat n + Z.of_nat m) EXACT_LIMIT));
      cbn [fst]; unfold EXACT_LIMIT in *; split; intros H0;
      try lia; try reflexivity; discriminate.
Qed.

Lemma negative_capacity_releases_witness :
  constructor (- Z.of_nat 2) = {| capacityLeft := - Z.of_nat 2; queue := [] |}
  /\ (forall m : nat,
        Z.of_nat m - Z.of_nat 2 <= EXACT_LIMIT ->
        run (repeat Up m) (constructor (- Z.of_nat 2))
        = Ok (repeat Released m,
              {| capacityLeft := Z.of_nat m - Z.of_nat 2; queue := [] |}))
  /\ releases_required (- Z.of_nat 2) (2 + 1).
Proof.
  apply (@negative_capacity_releases 2); [lia |].
  unfold EXACT_LIMIT. simpl. lia.
Defined.





(** C8. For every integer [capacity], positive, zero or negative,
    [constructor capacity] is defined, checks nothing and gives
    [capacityLeft = capacity] with an empty queue; and on a semaphore of
    capacity 1 the calls down, up, down, up, down all complete (each [down]
    at once, no [up] throwing) and leave [capacityLeft = 0] with an empty
    queue. *)
Theorem constructor_and_rapid_cycle (capacity : Z) (a b c : resolver) :
  capacityLeft (constructor capacity) = capacity
  /\ queue (constructor capacity) = []
  /\ run [Down a; Up; Down b; Up; Down c] (constructor 1)
     = Ok ([Acquired; Released; Acquired; Released; Acquired],
           {| capacityLeft := 0; queue := [] |}).
Proof. repeat split. Qed.




(** C10. Whenever the queue is non-empty, one [up] resumes the front waiter
    and leaves [capacityLeft] as it is, also when [capacityLeft] is negative:
    a task that suspended on a semaphore constructed with a negative capacity
    is resumed by the very first [up], [capacityLeft] staying at its negative
    value; no [up] adds to the counter while a waiter exists. *)
Theorem handoff_below_zero :
  (forall (s : Semaphore) (r : resolver) (rest : list resolver),
      queue s = r :: rest ->
      up s = Ok (Some r, {| capacityLeft := capacityLeft s; queue := rest |}))
  /\ (forall (s s' : Semaphore) (next : option resolver),
        queue s <> [] ->
        up s = Ok (next, s') ->
        capacityLeft s' = capacityLeft s /\ next <> None)
  /\ (forall (capacity : Z) (fresh : resolver),
        capacity < 0 ->
        run [Down fresh; Up] (constructor capacity)
        = Ok ([Suspended fresh; Resumed fresh],
              {| capacityLeft := capacity; queue := [] |})).
Proof.
  split; [| split].
  - intros s r rest. apply up_handoff.
  - intros s s' next Hne Hup.
    destruct (queue s) as [| r rest] eqn:Hq; [contradiction Hne; reflexivity |].
    rewrite (up_handoff s Hq) in Hup. injection Hup as <- <-.
    split; [reflexivity | discriminate].
  - intros capacity fresh Hc.
    apply run_cons
      with (s1 := {| capacityLeft := capacity; queue := [fresh] |}).
    + apply (@step_suspend fresh (constructor capacity)). simpl. lia.
    + apply run_cons with (s1 := {| capacityLeft := capacity; queue := [] |}).
      * apply (@step_resume {| capacityLeft := capacity; queue := [fresh] |}
                            fresh []).
        reflexivity.
      * reflexivity.
Qed.

Lemma handoff_below_zero_witness :
  run [Down 3; Up] (constructor (-4))
  = Ok ([Suspended 3; Resumed 3], {| capacityLeft := -4; queue := [] |})
  /\ up {| capacityLeft := -4; queue := [3%nat] |}
     = Ok (Some 3%nat, {| capacityLeft := -4; queue := [] |}).
Proof.
  split.
  - apply (proj2 (proj2 handoff_below_zero) (-4) 3%nat). lia.
  - apply (proj1 handoff_below_zero
             {| capacityLeft := -4; queue := [3%nat] |} 3%nat []).
    reflexivity.
Defined.

(* ------------------------------------------------------------------ *)
(** ** Further properties of call sequences *)

Lemma ran_fifo (s s' : Semaphore) (ops : list op) (es : list event) :
  ran s ops es s' ->
  queue s ++ suspended es = resumed es ++ queue s'.
Proof.
  induction 1 as [s | s o e s1 ops es s2 Hst Hran IH].
  - simpl. apply app_nil_r.
  - destruct Hst as [fresh Hc | fresh Hc | Hq | r rest Hq]; simpl in *.
    + exact IH.
    + rewrite <- IH, <- app_assoc. reflexivity.
    + rewrite Hq. exact IH.
    + rewrite Hq. simpl. rewrite IH. reflexivity.
Qed.

(** X1. Whatever way [down] and [up] calls are interleaved, starting in any
    state: the waiters that were in the queue followed by the callers that
    suspended since, in that order, are exactly the waiters resumed since, in
    the order of their resumption, followed by the queue that is left.  So
    resumption order is suspension order across the whole history, and no
    waiter is skipped or lost. *)
Theorem global_fifo (ops : list op) (s s' : Semaphore) (es : list event) :
  run ops s = Ok (es, s') ->
  queue s ++ suspended es = resumed es ++ queue s'.
Proof. intros H. apply ran_fifo with (ops := ops). apply run_ok_ran. exact H. Qed.

Lemma global_fifo_witness :
  queue (constructor 1)
  ++ suspended [Acquired; Suspended 1; Suspended 2; Resumed 1; Suspended 3]
  = resumed [Acquired; Suspended 1; Suspended 2; Resumed 1; Suspended 3]
    ++ queue {| capacityLeft := 0; queue := [2; 3]%nat |}.
Proof.
  apply (@global_fifo [Down 0; Down 1; Down 2; Up; Down 3]).
  reflexivity.
Defined.

Lemma ran_suspended_fresh (s s' : Semaphore) (ops : list op) (es : list event) :
  ran s ops es s' ->
  forall r, In r (suspended es) -> In r (fresh_of ops).
Proof.
  induction 1 as [s | s o e s1 ops es s2 Hst Hran IH]; intros r Hin.
  - contradiction.
  - destruct Hst as [fresh Hc | fresh Hc | Hq | r0 rest Hq]; simpl in *.
    + right. apply IH. exact Hin.
    + destruct Hin as [-> | Hin]; [left; reflexivity | right; apply IH; exact Hin].
    + apply IH. exact Hin.
    + apply IH. exact Hin.
Qed.

Lemma ran_suspended_NoDup (s s' : Semaphore) (ops : list op) (es : list event) :
  ran s ops es s' ->
  NoDup (fresh_of ops) -> NoDup (suspended es).
Proof.
  induction 1 as [s | s o e s1 ops es s2 Hst Hran IH]; intros Hnd.
  - constructor.
  - destruct Hst as [fresh Hc | fresh Hc | Hq | r0 rest Hq]; simpl in *.
    + apply IH. inversion Hnd; assumption.
    + inversion Hnd as [| x l Hnotin Hnd']; subst. constructor.
      * intros Hin. apply Hnotin. exact (ran_suspended_fresh Hran _ Hin).
      * apply IH. exact Hnd'.
    + apply IH. exact Hnd.
    + apply IH. exact Hnd.
Qed.

(** X2. On a new semaphore, when every [down] call brings its own promise
    (the resolve functions are pairwise distinct), no waiter is resumed
    twice, no waiter is queued twice, and a resumed waiter is no longer in
    the queue. *)
Theorem resumed_once (capacity : Z) (ops : list op) (s' : Semaphore)
        (es : list event) :
  NoDup (fresh_of ops) ->
  run ops (constructor capacity) = Ok (es, s') ->
  NoDup (resumed es) /\ NoDup (queue s')
  /\ (forall r, In r (resumed es) -> ~ In r (queue s')).
Proof.
  intros Hnd Hrun. apply run_ok_ran in Hrun.
  pose proof (ran_suspended_NoDup Hrun Hnd) as Hs.
  pose proof (ran_fifo Hrun) as Hf. simpl in Hf. rewrite Hf in Hs.
  split; [exact (NoDup_app_remove_r _ _ Hs) |].
  split; [exact (NoDup_app_remove_l _ _ Hs) |].
  intros r Hr Hq. revert Hs Hr Hq. generalize (resumed es) as l.
  induction l as [| x l IH]; intros Hs Hr Hq; [contradiction |].
  simpl in Hs. inversion Hs as [| y m Hnotin Hs']; subst.
  destruct Hr as [-> | Hr].
  - apply Hnotin. apply in_or_app. right. exact Hq.
  - exact (IH Hs' Hr Hq).
Qed.

Lemma resumed_once_witness :
  NoDup (resumed [Acquired; Suspended 1; Suspended 2; Resumed 1])
  /\ NoDup (queue {| capacityLeft := 0; queue := [2%nat] |})
  /\ (forall r, In r (resumed [Acquired; Suspended 1; Suspended 2; Resumed 1]) ->
                ~ In r (queue {| capacityLeft := 0; queue := [2%nat] |})).
Proof.
  apply (@resumed_once 1 [Down 0; Down 1; Down 2; Up]).
  - simpl. repeat constructor; simpl; intuition discriminate.
  - reflexivity.
Defined.

(** X3. [capacityLeft] never drops below the lesser of the initial capacity
    and zero; on a semaphore constructed with a capacity of zero or more it
    is never negative. *)
Theorem counter_floor (capacity : Z) (s : Semaphore) :
  reachable capacity s ->
  Z.min capacity 0 <= capacityLeft s
  /\ (0 <= capacity -> 0 <= capacityLeft s).
Proof.
  intros Hr. destruct (reachable_bounded_wait Hr) as [Hlo _].
  split; [exact Hlo | lia].
Qed.

Lemma counter_floor_witness :
  Z.min 1 0 <= capacityLeft {| capacityLeft := 0; queue := [5%nat] |}
  /\ (0 <= 1 -> 0 <= capacityLeft {| capacityLeft := 0; queue := [5%nat] |}).
Proof.
  apply (@counter_floor 1 {| capacityLeft := 0; queue := [5%nat] |}).
  split; [reflexivity |].
  exists [Down 0; Down 5], [Acquired; Suspended 5]. reflexivity.
Defined.

(** X4. No overtaking: in a reachable state with a task waiting, a further
    [down] never returns at once; it suspends and joins the end of the
    queue, also right after an [up] has handed a unit to a waiter. *)
Theorem no_overtaking (capacity : Z) (s : Semaphore) (fresh : resolver) :
  reachable capacity s ->
  queue s <> [] ->
  down fresh s
  = (Pending fresh,
     {| capacityLeft := capacityLeft s; queue := queue s ++ [fresh] |}).
Proof.
  intros Hr Hne. destruct (reachable_bounded_wait Hr) as [_ Hq].
  apply down_exhausted. apply Hq. exact Hne.
Qed.

Lemma no_overtaking_witness :
  down 9 {| capacityLeft := 0; queue := [2%nat] |}
  = (Pending 9,
     {| capacityLeft := capacityLeft {| capacityLeft := 0; queue := [2%nat] |};
        queue := queue {| capacityLeft := 0; queue := [2%nat] |} ++ [9%nat] |}).
Proof.
  apply (@no_overtaking 1 {| capacityLeft := 0; queue := [2%nat] |} 9).
  - split; [reflexivity |].
    exists [Down 0; Down 1; Down 2; Up], [Acquired; Suspended 1; Suspended 2; Resumed 1].
    reflexivity.
  - discriminate.
Defined.

(** X5. Within [2^53] units are neither created nor lost: after any calls
    on a semaphore constructed with a capacity [capacity >= - 2^53], [b] of
    them [up] with [capacity + b <= 2^53], the number of acquisitions granted
    so far (at once or by resumption) plus [capacityLeft] equals
    [capacity + b]; so with [capacity >= 0] at most [capacity + b]
    acquisitions have been granted. *)
Theorem grants_bounded (capacity : Z) (ops : list op) (s' : Semaphore)
        (es : list event) :
  - EXACT_LIMIT <= capacity ->
  capacity + Z.of_nat (count_ups ops) <= EXACT_LIMIT ->
  run ops (constructor capacity) = Ok (es, s') ->
  Z.of_nat (granted es) + capacityLeft s' = capacity + Z.of_nat (count_ups ops)
  /\ (0 <= capacity ->
      Z.of_nat (granted es) <= capacity + Z.of_nat (count_ups ops)).
Proof.
  intros Hlo Hhi Hrun.
  pose proof (fun HC => constructed_nonneg ops HC Hrun) as Hnn.
  apply run_ok_ran in Hrun.
  destruct (ran_exact Hrun Hlo Hhi) as [_ Hg]. cbn [constructor capacityLeft] in Hg.
  split; [exact Hg |]. intros HC. specialize (Hnn HC). lia.
Qed.

Lemma grants_bounded_witness :
  Z.of_nat (granted [Acquired; Suspended 1; Resumed 1; Suspended 2])
  + capacityLeft {| capacityLeft := 0; queue := [2%nat] |}
  = 1 + Z.of_nat (count_ups [Down 0; Down 1; Up; Down 2])
  /\ (0 <= 1 ->
      Z.of_nat (granted [Acquired; Suspended 1; Resumed 1; Suspended 2])
      <= 1 + Z.of_nat (count_ups [Down 0; Down 1; Up; Down 2])).
Proof.
  apply (@grants_bounded 1 [Down 0; Down 1; Up; Down 2]);
    [unfold EXACT_LIMIT; lia | unfold EXACT_LIMIT; simpl; lia | reflexivity].
Defined.

(** X6. When a batch of tasks calls [down] one after the other on a new
    semaphore of capacity at most [2^53], exactly the first [capacity]
    callers (none if the capacity is zero or negative, all if there are
    fewer callers) are admitted at once and the others are suspended and
    queued in call order. *)
Theorem batch_admission (capacity : Z) (rs : list resolver) :
  capacity <= EXACT_LIMIT ->
  run (map Down rs) (constructor capacity)
  = Ok (repeat Acquired (Nat.min (Z.to_nat capacity) (length rs))
          ++ map Suspended (skipn (Z.to_nat capacity) rs),
        {| capacityLeft :=
             capacity - Z.of_nat (Nat.min (Z.to_nat capacity) (length rs));
           queue := skipn (Z.to_nat capacity) rs |}).
Proof.
  intros HL. unfold constructor.
  destruct (Z.lt_ge_cases capacity 0) as [Hneg | Hpos].
  - replace (Z.to_nat capacity) with 0%nat by lia. simpl.
    rewrite run_downs_exhausted by lia. rewrite Z.sub_0_r. reflexivity.
  - set (n := Z.to_nat capacity).
    rewrite <- (firstn_skipn n rs) at 1. rewrite map_app.
    assert (Hl : length (firstn n rs) = Nat.min n (length rs))
      by apply length_firstn.
    eapply run_app.
    + rewrite run_downs_available by (rewrite ?Hl; lia).
      rewrite Hl. reflexivity.
    + destruct (Nat.le_gt_cases (length rs) n) as [Hle | Hgt].
      * rewrite (skipn_all2 rs Hle). reflexivity.
      * rewrite run_downs_exhausted by lia. reflexivity.
Qed.

Lemma batch_admission_witness :
  run (map Down [4; 5; 6]%nat) (constructor 2)
  = Ok (repeat Acquired (Nat.min (Z.to_nat 2) (length [4; 5; 6]%nat))
          ++ map Suspended (skipn (Z.to_nat 2) [4; 5; 6]%nat),
        {| capacityLeft :=
             2 - Z.of_nat (Nat.min (Z.to_nat 2) (length [4; 5; 6]%nat));
           queue := skipn (Z.to_nat 2) [4; 5; 6]%nat |}).
Proof.
  apply (@batch_admission 2 [4; 5; 6]%nat). unfold EXACT_LIMIT. lia.
Defined.

(** X7. On a semaphore with nobody waiting and [capacityLeft <= 2^53], a
    [down] followed by an [up] puts the semaphore back in the state it was
    in, whichever branch [down] took: the caller either acquired and gave
    the unit back, or suspended and was resumed by that [up]. *)
Theorem down_up_restores (fresh : resolver) (s : Semaphore) :
  queue s = [] ->
  (0 < capacityLeft s -> capacityLeft s <= EXACT_LIMIT ->
   run [Down fresh; Up] s = Ok ([Acquired; Released], s))
  /\ (capacityLeft s <= 0 ->
      run [Down fresh; Up] s = Ok ([Suspended fresh; Resumed fresh], s)).
Proof.
  destruct s as [c q]. cbn [queue capacityLeft]. intros ->. split.
  - intros Hc Hl.
    apply run_cons with (s1 := {| capacityLeft := c - 1; queue := [] |}).
    + rewrite (@step_acquire fresh {| capacityLeft := c; queue := [] |})
        by exact Hc.
      cbn [capacityLeft queue]. rewrite decr_exact by assumption. reflexivity.
    + apply run_cons with (s1 := {| capacityLeft := c; queue := [] |}).
      * rewrite step_release by reflexivity. cbn [capacityLeft].
        rewrite incr_exact by (unfold EXACT_LIMIT in *; lia).
        do 3 f_equal. lia.
      * reflexivity.
  - intros Hc.
    apply run_cons with (s1 := {| capacityLeft := c; queue := [fresh] |}).
    + apply (@step_suspend fresh {| capacityLeft := c; queue := [] |}). exact Hc.
    + apply run_cons with (s1 := {| capacityLeft := c; queue := [] |}).
      * apply (@step_resume {| capacityLeft := c; queue := [fresh] |} fresh []).
        reflexivity.
      * reflexivity.
Qed.

Lemma down_up_restores_witness :
  run [Down 4; Up] (constructor 1) = Ok ([Acquired; Released], constructor 1)
  /\ run [Down 4; Up] (constructor 0)
     = Ok ([Suspended 4; Resumed 4], constructor 0).
Proof.
  split.
  - apply (proj1 (@down_up_restores 4 (constructor 1) eq_refl));
      simpl; unfold EXACT_LIMIT; lia.
  - apply (proj2 (@down_up_restores 4 (constructor 0) eq_refl)). simpl. lia.
Defined.

(** X8. Units released in excess can be acquired later: on a semaphore with
    nobody waiting and [capacityLeft >= - 2^53], after [n] calls of [up]
    that leave [capacityLeft + n <= 2^53], as many calls of [down] as
    [capacityLeft + n] covers all return at once. *)
Theorem excess_releases_usable (n : nat) (rs : list resolver) (s : Semaphore) :
  queue s = [] ->
  - EXACT_LIMIT <= capacityLeft s ->
  capacityLeft s + Z.of_nat n <= EXACT_LIMIT ->
  Z.of_nat (length rs) <= capacityLeft s + Z.of_nat n ->
  run (repeat Up n ++ map Down rs) s
  = Ok (repeat Released n ++ repeat Acquired (length rs),
        {| capacityLeft := capacityLeft s + Z.of_nat n - Z.of_nat (length rs);
           queue := [] |}).
Proof.
  destruct s as [c q]. cbn [queue capacityLeft]. intros -> Hlo Hhi Hle.
  eapply run_app.
  - rewrite run_ups_nobody_waiting, incr_times_exact by assumption.
    reflexivity.
  - apply run_downs_available; assumption.
Qed.

Lemma excess_releases_usable_witness :
  run (repeat Up 3 ++ map Down [1; 2]%nat) {| capacityLeft := 1; queue := [] |}
  = Ok (repeat Released 3 ++ repeat Acquired (length [1; 2]%nat),
        {| capacityLeft :=
             capacityLeft {| capacityLeft := 1; queue := [] |}
             + Z.of_nat 3 - Z.of_nat (length [1; 2]%nat);
           queue := [] |}).
Proof.
  apply (@excess_releases_usable 3 [1; 2]%nat {| capacityLeft := 1; queue := [] |});
    [reflexivity | | |]; simpl; unfold EXACT_LIMIT; lia.
Defined.

(* ------------------------------------------------------------------ *)
(** ** Tasks sharing a semaphore *)

Lemma set_phase_length (i : nat) (p : phase) (ps : list phase) :
  length (set_phase i p ps) = length ps.
Proof.
  revert i. induction ps as [| q ps IH]; intros [| i]; simpl; try reflexivity.
  rewrite IH. reflexivity.
Qed.

Lemma nth_error_set_phase_same (i : nat) (p old : phase) (ps : list phase) :
  nth_error ps i = Some old -> nth_error (set_phase i p ps) i = Some p.
Proof.
  revert i. induction ps as [| q ps IH]; intros [| i] H; simpl in *;
    try discriminate; [reflexivity | apply IH; exact H].
Qed.

Lemma nth_error_set_phase_other (i j : nat) (p : phase) (ps : list phase) :
  i <> j -> nth_error (set_phase i p ps) j = nth_error ps j.
Proof.
  revert i j. induction ps as [| q ps IH]; intros [| i] [| j] H; simpl;
    try reflexivity; [contradiction H; reflexivity | apply IH; congruence].
Qed.

Lemma total_set_phase (f : phase -> Z) (i : nat) (p old : phase)
      (ps : list phase) :
  nth_error ps i = Some old ->
  total f (set_phase i p ps) = total f ps - f old + f p.
Proof.
  revert i. induction ps as [| q ps IH]; intros [| i] H; simpl in *;
    try discriminate.
  - injection H as ->. lia.
  - rewrite (IH i H). lia.
Qed.

Lemma total_repeat (f : phase -> Z) (p : phase) (n : nat) :
  total f (repeat p n) = Z.of_nat n * f p.
Proof. induction n as [| n IH]; [reflexivity |]. simpl repeat. simpl total. lia. Qed.

Lemma nth_error_repeat_Idle (n i : nat) (p : phase) :
  nth_error (repeat Idle n) i = Some p -> p = Idle.
Proof.
  intros H. apply nth_error_In in H. apply repeat_spec in H. exact H.
Qed.

(** Resolving a promise gives no unit and takes none from the count of
    segments left. *)
Lemma total_resolve_remaining (r : resolver) (ps : list phase) :
  total remaining (resolve r ps) = total remaining ps.
Proof.
  unfold resolve. destruct (nth_error ps r) as [[| | | |] |] eqn:Hr;
    try reflexivity.
  rewrite (total_set_phase remaining r Granted ps Hr). simpl. lia.
Qed.

Lemma resolve_waiting (r : resolver) (ps : list phase) :
  nth_error ps r = Some Waiting -> resolve r ps = set_phase r Granted ps.
Proof. intros H. unfold resolve. rewrite H. reflexivity. Qed.

(** The four segments, by case. *)
Lemma segment_start_acquire (i : nat) (st : System) :
  nth_error (tasks st) i = Some Idle ->
  0 < capacityLeft (semaphore st) ->
  segment i st
  = Stepped {| semaphore :=
                 {| capacityLeft := decr (capacityLeft (semaphore st));
                    queue := queue (semaphore st) |};
               tasks := set_phase i Granted (tasks st);
               results := results st |}.
Proof.
  intros Hi Hc. unfold segment. rewrite Hi, (down_available i _ Hc). reflexivity.
Qed.

Lemma segment_start_suspend (i : nat) (st : System) :
  nth_error (tasks st) i = Some Idle ->
  capacityLeft (semaphore st) <= 0 ->
  segment i st
  = Stepped {| semaphore := {| capacityLeft := capacityLeft (semaphore st);
                              queue := queue (semaphore st) ++ [i] |};
               tasks := set_phase i Waiting (tasks st);
               results := results st |}.
Proof.
  intros Hi Hc. unfold segment. rewrite Hi, (down_exhausted i _ Hc). reflexivity.
Qed.

Lemma segment_enter (i : nat) (st : System) :
  nth_error (tasks st) i = Some Granted ->
  segment i st
  = Stepped {| semaphore := semaphore st;
               tasks := set_phase i Working (tasks st);
               results := results st ++ [i] |}.
Proof. intros Hi. unfold segment. rewrite Hi. reflexivity. Qed.

Lemma segment_leave_release (i : nat) (st : System) :
  nth_error (tasks st) i = Some Working ->
  queue (semaphore st) = [] ->
  segment i st
  = Stepped {| semaphore :=
                 {| capacityLeft := incr (capacityLeft (semaphore st));
                    queue := [] |};
               tasks := set_phase i Done (tasks st);
               results := results st |}.
Proof.
  intros Hi Hq. unfold segment. rewrite Hi, (up_nobody_waiting _ Hq). reflexivity.
Qed.

Lemma segment_leave_handoff (i : nat) (st : System) (r : resolver)
      (rest : list resolver) :
  nth_error (tasks st) i = Some Working ->
  queue (semaphore st) = r :: rest ->
  segment i st
  = Stepped {| semaphore := {| capacityLeft := capacityLeft (semaphore st);
                              queue := rest |};
               tasks := resolve r (set_phase i Done (tasks st));
               results := results st |}.
Proof.
  intros Hi Hq. unfold segment. rewrite Hi, (up_handoff _ Hq). reflexivity.
Qed.

Lemma segment_cases (i : nat) (st : System) :
  match segment i st with
  | Stepped st' => moved i st st'
  | Rejected _ => False
  | Blocked =>
      nth_error (tasks st) i = Some Waiting
      \/ nth_error (tasks st) i = Some Done
      \/ nth_error (tasks st) i = None
  end.
Proof.
  destruct (nth_error (tasks st) i) as [[| | | |] |] eqn:Hi.
  - destruct (Z.lt_ge_cases 0 (capacityLeft (semaphore st))) as [Hc | Hc].
    + rewrite (segment_start_acquire i st Hi Hc). constructor; assumption.
    + rewrite (segment_start_suspend i st Hi Hc). constructor; assumption.
  - unfold segment. rewrite Hi. left. reflexivity.
  - rewrite (segment_enter i st Hi). constructor; assumption.
  - destruct (queue (semaphore st)) as [| r rest] eqn:Hq.
    + rewrite (segment_leave_release i st Hi Hq). constructor; assumption.
    + rewrite (segment_leave_handoff i st Hi Hq). econstructor; eassumption.
  - unfold segment. rewrite Hi. right. left. reflexivity.
  - unfold segment. rewrite Hi. right. right. reflexivity.
Qed.

Lemma segment_moved (i : nat) (st st' : System) :
  segment i st = Stepped st' -> moved i st st'.
Proof. intros H. pose proof (segment_cases i st) as Hc. rewrite H in Hc. exact Hc. Qed.

Lemma segment_not_rejected (i : nat) (st : System) (e : error) :
  segment i st <> Rejected e.
Proof. intros H. pose proof (segment_cases i st) as Hc. rewrite H in Hc. exact Hc. Qed.

(** Every segment that runs is one segment less to run. *)
Lemma moved_remaining (i : nat) (st st' : System) :
  moved i st st' ->
  total remaining (tasks st') = total remaining (tasks st) - 1.
Proof.
  intros H. destruct H as [Hi Hc | Hi Hc | Hi | Hi Hq | r rest Hi Hq];
    cbn [tasks]; rewrite ?total_resolve_remaining;
    rewrite (total_set_phase remaining i _ (tasks st) Hi); cbn [remaining]; lia.
Qed.

Lemma total_remaining_nonneg (ps : list phase) : 0 <= total remaining ps.
Proof.
  induction ps as [| p ps IH]; cbn [total]; [lia |].
  destruct p; cbn [remaining]; lia.
Qed.

Lemma total_holding_nonneg (ps : list phase) : 0 <= total holding ps.
Proof.
  induction ps as [| p ps IH]; cbn [total]; [lia |].
  destruct p; cbn [holding]; lia.
Qed.

Lemma holding_le_total (i : nat) (p : phase) (ps : list phase) :
  nth_error ps i = Some p -> holding p <= total holding ps.
Proof.
  revert i. induction ps as [| q ps IH]; intros [| i] H; simpl in H;
    try discriminate; cbn [total].
  - injection H as ->. pose proof (total_holding_nonneg ps). lia.
  - specialize (IH i H). destruct q; cbn [holding]; lia.
Qed.

Lemma launch_consistent (capacity : Z) (K : nat) :
  consistent capacity K (launch capacity K).
Proof.
  unfold launch. constructor; cbn [semaphore tasks results];
    unfold holders; cbn [tasks constructor capacityLeft queue];
    rewrite ?total_repeat; cbn [holding].
  - apply repeat_length.
  - intros H. exact H.
  - intros H. lia.
  - intros H. lia.
  - intros H. contradiction H. reflexivity.
  - constructor.
  - intros i. split; [intros [] |].
    intros H. apply nth_error_repeat_Idle in H. discriminate.
  - constructor.
  - intros i. split; [intros [] |].
    intros [H | H]; apply nth_error_repeat_Idle in H; discriminate.
Qed.

Lemma nth_error_set_phase (i j : nat) (p old : phase) (ps : list phase) :
  nth_error ps i = Some old ->
  nth_error (set_phase i p ps) j
  = if Nat.eq_dec i j then Some p else nth_error ps j.
Proof.
  intros H. destruct (Nat.eq_dec i j) as [<- | E].
  - exact (nth_error_set_phase_same i p ps H).
  - exact (nth_error_set_phase_other p ps E).
Qed.

Lemma holders_set_phase (i : nat) (p old : phase) (st : System) :
  nth_error (tasks st) i = Some old ->
  total holding (set_phase i p (tasks st)) = holders st - holding old + holding p.
Proof. intros H. unfold holders. exact (total_set_phase holding i p (tasks st) H). Qed.

Lemma moved_consistent (capacity : Z) (K i : nat) (st st' : System) :
  moved i st st' -> consistent capacity K st -> consistent capacity K st'.
Proof.
  intros Hm [Hlen Hfloor Hlive Hunits Hwait Hnd Hq Hrnd Hres].
  pose proof (total_holding_nonneg (tasks st)) as Hh0.
  pose proof (fun p => holding_le_total i (p := p) (tasks st)) as Hhi.
  unfold holders in *.
  destruct Hm as [Hi Hc | Hi Hc | Hi | Hi Hqe | r rest Hi Hqe].
  - (* down returned at once *)
    pose proof (decr_nonneg Hc) as Hd.
    constructor; unfold holders; cbn [semaphore tasks results capacityLeft queue].
    + rewrite set_phase_length. exact Hlen.
    + intros _. exact Hd.
    + intros _. rewrite (holders_set_phase i Granted st Hi). unfold holders.
      cbn [holding]. lia.
    + intros HC. specialize (Hunits HC).
      rewrite (holders_set_phase i Granted st Hi). unfold holders.
      rewrite decr_exact by lia. cbn [holding]. lia.
    + intros Hne. specialize (Hwait Hne). lia.
    + exact Hnd.
    + intros j. rewrite (nth_error_set_phase i j Granted (tasks st) Hi).
      destruct (Nat.eq_dec i j) as [<- | E]; [| apply Hq].
      rewrite Hq, Hi. split; discriminate.
    + exact Hrnd.
    + intros j. rewrite (nth_error_set_phase i j Granted (tasks st) Hi).
      destruct (Nat.eq_dec i j) as [<- | E]; [| apply Hres].
      rewrite Hres, Hi. split; intros [H | H]; discriminate.
  - (* down suspended the task *)
    assert (Hnotin : ~ In i (queue (semaphore st))).
    { rewrite Hq, Hi. discriminate. }
    constructor; unfold holders; cbn [semaphore tasks results capacityLeft queue];
      rewrite ?(holders_set_phase i Waiting st Hi); unfold holders;
      cbn [holding]; rewrite ?Z.sub_0_r, ?Z.add_0_r.
    + rewrite set_phase_length. exact Hlen.
    + exact Hfloor.
    + exact Hlive.
    + exact Hunits.
    + intros _. exact Hc.
    + apply NoDup_app; [exact Hnd | repeat constructor; intros [] |].
      intros x Hx [<- | []]. exact (Hnotin Hx).
    + intros j. rewrite (nth_error_set_phase i j Waiting (tasks st) Hi).
      rewrite in_app_iff.
      destruct (Nat.eq_dec i j) as [<- | E].
      * split; [reflexivity | intros _; right; left; reflexivity].
      * rewrite Hq. split; [| intros H; left; exact H].
        intros [H | [H | []]]; [exact H | contradiction].
    + exact Hrnd.
    + intros j. rewrite (nth_error_set_phase i j Waiting (tasks st) Hi).
      destruct (Nat.eq_dec i j) as [<- | E]; [| apply Hres].
      rewrite Hres, Hi. split; intros [H | H]; discriminate.
  - (* entering the critical section *)
    assert (Hnotin : ~ In i (results st)).
    { rewrite Hres, Hi. intros [H | H]; discriminate. }
    assert (Hsame : total holding (set_phase i Working (tasks st))
                    = total holding (tasks st)).
    { rewrite (holders_set_phase i Working st Hi). unfold holders.
      cbn [holding]. lia. }
    constructor; unfold holders; cbn [semaphore tasks results capacityLeft queue];
      rewrite ?Hsame.
    + rewrite set_phase_length. exact Hlen.
    + exact Hfloor.
    + exact Hlive.
    + exact Hunits.
    + exact Hwait.
    + exact Hnd.
    + intros j. rewrite (nth_error_set_phase i j Working (tasks st) Hi).
      destruct (Nat.eq_dec i j) as [<- | E]; [| apply Hq].
      rewrite Hq, Hi. split; discriminate.
    + apply NoDup_app; [exact Hrnd | repeat constructor; intros [] |].
      intros x Hx [<- | []]. exact (Hnotin Hx).
    + intros j. rewrite (nth_error_set_phase i j Working (tasks st) Hi).
      rewrite in_app_iff.
      destruct (Nat.eq_dec i j) as [<- | E].
      * split; [intros _; left; reflexivity | intros _; right; left; reflexivity].
      * rewrite Hres. split; [| intros H; left; exact H].
        intros [H | [H | []]]; [exact H | contradiction].
  - (* up with nobody waiting *)
    specialize (Hhi Working Hi). cbn [holding] in Hhi.
    pose proof (total_holding_nonneg (set_phase i Done (tasks st))) as Hh1.
    assert (Hless : total holding (set_phase i Done (tasks st))
                    = total holding (tasks st) - 1).
    { rewrite (holders_set_phase i Done st Hi). unfold holders.
      cbn [holding]. lia. }
    constructor; unfold holders; cbn [semaphore tasks results capacityLeft queue].
    + rewrite set_phase_length. exact Hlen.
    + intros HC. pose proof (incr_pos (Hfloor HC)). lia.
    + intros HC. pose proof (incr_pos (Hfloor ltac:(lia))). lia.
    + intros HC. specialize (Hunits HC). specialize (Hfloor ltac:(lia)).
      rewrite Hless, incr_exact by (unfold EXACT_LIMIT in *; lia). lia.
    + intros H. contradiction H. reflexivity.
    + constructor.
    + intros j. rewrite (nth_error_set_phase i j Done (tasks st) Hi).
      destruct (Nat.eq_dec i j) as [<- | E].
      * split; [intros [] | discriminate].
      * rewrite <- Hq, Hqe. reflexivity.
    + exact Hrnd.
    + intros j. rewrite (nth_error_set_phase i j Done (tasks st) Hi).
      destruct (Nat.eq_dec i j) as [<- | E]; [| apply Hres].
      rewrite Hres, Hi. split; [intros _; right; reflexivity |].
      intros _. left. reflexivity.
  - (* up handing the unit to the first waiter *)
    assert (Hr : nth_error (tasks st) r = Some Waiting).
    { apply Hq. rewrite Hqe. left. reflexivity. }
    assert (Hir : i <> r) by (intros ->; rewrite Hr in Hi; discriminate).
    assert (Hr' : nth_error (set_phase i Done (tasks st)) r = Some Waiting).
    { rewrite (nth_error_set_phase_other Done (tasks st) Hir). exact Hr. }
    rewrite Hqe in Hnd. inversion Hnd as [| x l Hrnotin Hnd']; subst x l.
    assert (Hne : queue (semaphore st) <> []) by (rewrite Hqe; discriminate).
    assert (Hsame : total holding
                      (set_phase r Granted (set_phase i Done (tasks st)))
                    = total holding (tasks st)).
    { rewrite (total_set_phase holding r Granted _ Hr').
      rewrite (holders_set_phase i Done st Hi). unfold holders.
      cbn [holding]. lia. }
    constructor; unfold holders; cbn [semaphore tasks results capacityLeft queue];
      rewrite ?(resolve_waiting r _ Hr'), ?Hsame.
    + rewrite !set_phase_length. exact Hlen.
    + exact Hfloor.
    + exact Hlive.
    + exact Hunits.
    + intros _. exact (Hwait Hne).
    + exact Hnd'.
    + intros j. rewrite (nth_error_set_phase r j Granted _ Hr').
      destruct (Nat.eq_dec r j) as [<- | E].
      * split; [intros H; contradiction | discriminate].
      * rewrite (nth_error_set_phase i j Done (tasks st) Hi).
        destruct (Nat.eq_dec i j) as [<- | E'].
        -- split; [| discriminate]. intros H.
           assert (Hin : In i (queue (semaphore st)))
             by (rewrite Hqe; right; exact H).
           apply Hq in Hin. rewrite Hi in Hin. discriminate.
        -- rewrite <- Hq, Hqe. simpl. split; [intros H; right; exact H |].
           intros [H | H]; [contradiction | exact H].
    + exact Hrnd.
    + intros j. rewrite (nth_error_set_phase r j Granted _ Hr').
      destruct (Nat.eq_dec r j) as [<- | E].
      * rewrite Hres, Hr. split; intros [H | H]; discriminate.
      * rewrite (nth_error_set_phase i j Done (tasks st) Hi).
        destruct (Nat.eq_dec i j) as [<- | E']; [| apply Hres].
        rewrite Hres, Hi. split; [intros _; right; reflexivity |].
        intros _. left. reflexivity.
Qed.

(** *** Schedules *)

Lemma exec_app (a b : list nat) (st : System) :
  exec (a ++ b) st
  = match exec a st with
    | Stepped st1 => exec b st1
    | stuck => stuck
    end.
Proof.
  revert st. induction a as [| i a IH]; intros st; simpl.
  - destruct (exec b st); reflexivity.
  - destruct (segment i st) as [| e | st1]; [reflexivity | reflexivity | apply IH].
Qed.

Lemma exec_consistent (capacity : Z) (K : nat) (sched : list nat)
      (st st' : System) :
  consistent capacity K st ->
  exec sched st = Stepped st' ->
  consistent capacity K st'.
Proof.
  revert st. induction sched as [| i sched IH]; intros st Hc H; simpl in H.
  - injection H as <-. exact Hc.
  - destruct (segment i st) as [| e | st1] eqn:Hs; try discriminate.
    apply (IH st1); [| exact H].
    exact (moved_consistent (segment_moved i st Hs) Hc).
Qed.

Lemma exec_remaining (sched : list nat) (st st' : System) :
  exec sched st = Stepped st' ->
  Z.of_nat (length sched) + total remaining (tasks st')
  = total remaining (tasks st).
Proof.
  revert st. induction sched as [| i sched IH]; intros st H; simpl in H.
  - injection H as <-. simpl. lia.
  - destruct (segment i st) as [| e | st1] eqn:Hs; try discriminate.
    pose proof (moved_remaining (segment_moved i st Hs)) as Hm.
    specialize (IH st1 H). simpl length. lia.
Qed.

Lemma launch_reaches_consistent (capacity : Z) (K : nat) (sched : list nat)
      (st : System) :
  exec sched (launch capacity K) = Stepped st ->
  consistent capacity K st.
Proof.
  intros H.
  eapply exec_consistent; [apply launch_consistent | exact H].
Qed.

(** *** Who can run *)

Lemma runnable_or_parked (ps : list phase) :
  (exists i, nth_error ps i = Some Idle
             \/ nth_error ps i = Some Granted
             \/ nth_error ps i = Some Working)
  \/ (forall i p, nth_error ps i = Some p -> p = Waiting \/ p = Done).
Proof.
  induction ps as [| q ps [(i & Hi) | Hall]].
  - right. intros [| i] p H; discriminate.
  - left. exists (S i). exact Hi.
  - destruct q; try (left; exists 0%nat; simpl; tauto).
    + right. intros [| i] p H; simpl in H;
        [injection H as <-; left; reflexivity | exact (Hall i p H)].
    + right. intros [| i] p H; simpl in H;
        [injection H as <-; right; reflexivity | exact (Hall i p H)].
Qed.

Lemma parked_hold_nothing (ps : list phase) :
  (forall i p, nth_error ps i = Some p -> p = Waiting \/ p = Done) ->
  total holding ps = 0.
Proof.
  induction ps as [| q ps IH]; intros H; [reflexivity |].
  cbn [total]. rewrite IH by (intros i p Hi; exact (H (S i) p Hi)).
  destruct (H 0%nat q eq_refl) as [-> | ->]; reflexivity.
Qed.

Lemma done_or_unfinished (st : System) : all_done st \/ unfinished st.
Proof.
  unfold all_done, unfinished. induction (tasks st) as [| q ps [Hall | (i & p & Hi & Hp)]].
  - left. intros [| i] p H; discriminate.
  - destruct q; try (right; exists 0%nat; eexists; split;
                     [reflexivity | discriminate]).
    left. intros [| i] p H; simpl in H;
      [injection H as <-; reflexivity | exact (Hall i p H)].
  - right. exists (S i), p. split; assumption.
Qed.

Lemma consistent_progress (capacity : Z) (K : nat) (st : System) :
  1 <= capacity ->
  consistent capacity K st ->
  unfinished st ->
  exists i st', segment i st = Stepped st'.
Proof.
  intros HC Hc (j & p & Hj & Hp).
  destruct (runnable_or_parked (tasks st)) as [(i & Hi) | Hall].
  - exists i. pose proof (segment_cases i st) as Hs.
    destruct (segment i st) as [| e | st1].
    + destruct Hi as [Hi | [Hi | Hi]]; rewrite Hi in Hs;
        destruct Hs as [Hs | [Hs | Hs]]; discriminate.
    + contradiction.
    + exists st1. reflexivity.
  - exfalso.
    assert (Hw : nth_error (tasks st) j = Some Waiting).
    { destruct (Hall j p Hj) as [-> | ->]; [exact Hj | contradiction Hp; reflexivity]. }
    apply (cons_queue Hc) in Hw.
    assert (Hne : queue (semaphore st) <> []) by (intros E; rewrite E in Hw; exact Hw).
    pose proof (cons_wait Hc Hne) as H0.
    pose proof (cons_live Hc HC) as Hu. unfold holders in Hu.
    rewrite (parked_hold_nothing _ Hall) in Hu. lia.
Qed.

Lemma consistent_completion (capacity : Z) (K : nat) (n : nat) :
  1 <= capacity ->
  forall st,
    consistent capacity K st ->
    total remaining (tasks st) = Z.of_nat n ->
    exists sched st',
      exec sched st = Stepped st' /\ all_done st' /\ length sched = n.
Proof.
  intros HC. induction n as [| n IH]; intros st Hc Hn.
  - destruct (done_or_unfinished st) as [Hd | Hu].
    + exists [], st. repeat split. exact Hd.
    + destruct (consistent_progress HC Hc Hu) as (i & st1 & Hs).
      pose proof (moved_remaining (segment_moved i st Hs)) as Hm.
      pose proof (total_remaining_nonneg (tasks st1)). lia.
  - destruct (done_or_unfinished st) as [Hd | Hu].
    + exfalso. clear IH. revert Hd Hn. unfold all_done.
      generalize (tasks st) as ps. intros ps Hd Hn.
      assert (H0 : total remaining ps = 0).
      { clear Hn. induction ps as [| q ps IHps]; [reflexivity |].
        cbn [total]. rewrite IHps by (intros i p Hi; exact (Hd (S i) p Hi)).
        rewrite (Hd 0%nat q eq_refl). reflexivity. }
      lia.
    + destruct (consistent_progress HC Hc Hu) as (i & st1 & Hs).
      pose proof (segment_moved i st Hs) as Hmv.
      pose proof (moved_remaining Hmv) as Hm.
      destruct (IH st1 (moved_consistent Hmv Hc)) as (sched & st' & He & Hd & Hl);
        [lia |].
      exists (i :: sched), st'. simpl. rewrite Hs.
      repeat split; [exact He | exact Hd | rewrite Hl; reflexivity].
Qed.

Lemma all_done_nothing_left (ps : list phase) :
  (forall i p, nth_error ps i = Some p -> p = Done) ->
  total remaining ps = 0 /\ total holding ps = 0.
Proof.
  induction ps as [| q ps IH]; intros H; [split; reflexivity |].
  destruct IH as [IH1 IH2]; [intros i p Hi; exact (H (S i) p Hi) |].
  cbn [total]. rewrite IH1, IH2, (H 0%nat q eq_refl). split; reflexivity.
Qed.

(** X9. The semaphore bounds the tasks in the critical phase: however the
    segments of [K] tasks are interleaved on a semaphore of capacity
    [capacity] with [0 <= capacity <= 2^53], the number of tasks that have
    been granted a unit and have not released it, plus [capacityLeft], is
    [capacity]; so at most [capacity] tasks hold a unit at any time. *)
Theorem holders_bounded (capacity : Z) (K : nat) (sched : list nat)
        (st : System) :
  0 <= capacity <= EXACT_LIMIT ->
  exec sched (launch capacity K) = Stepped st ->
  holders st + capacityLeft (semaphore st) = capacity
  /\ 0 <= holders st <= capacity.
Proof.
  intros HC H. pose proof (launch_reaches_consistent _ _ _ H) as Hc.
  pose proof (cons_units Hc HC) as Hu.
  pose proof (cons_floor Hc (proj1 HC)) as Hf.
  pose proof (total_holding_nonneg (tasks st)) as Hh. unfold holders in *.
  split; [exact Hu | lia].
Qed.

Lemma holders_bounded_witness :
  holders {| semaphore := {| capacityLeft := 0; queue := [2%nat] |};
             tasks := [Working; Granted; Waiting];
             results := [0%nat] |}
  + capacityLeft {| capacityLeft := 0; queue := [2%nat] |} = 2
  /\ 0 <= holders {| semaphore := {| capacityLeft := 0; queue := [2%nat] |};
                     tasks := [Working; Granted; Waiting];
                     results := [0%nat] |} <= 2.
Proof.
  apply (@holders_bounded 2 3 [0; 1; 2; 0]%nat).
  - unfold EXACT_LIMIT. lia.
  - reflexivity.
Defined.

(** X10. No deadlock: with a capacity of at least one, in every state the
    tasks can reach, as long as some task has not finished some task has a
    segment that can run (and running it does not throw). *)
Theorem no_deadlock (capacity : Z) (K : nat) (sched : list nat) (st : System) :
  1 <= capacity ->
  exec sched (launch capacity K) = Stepped st ->
  unfinished st ->
  exists i st', segment i st = Stepped st'.
Proof.
  intros HC H Hu.
  exact (consistent_progress HC (launch_reaches_consistent _ _ _ H) Hu).
Qed.

Lemma no_deadlock_witness :
  exists i st',
    segment i {| semaphore := {| capacityLeft := 0; queue := [1%nat] |};
                 tasks := [Granted; Waiting];
                 results := [] |}
    = Stepped st'.
Proof.
  apply (@no_deadlock 1 2 [0; 1]%nat).
  - lia.
  - reflexivity.
  - exists 1%nat, Waiting. split; [reflexivity | discriminate].
Defined.

(** X11. Every run can be completed, and completes in exactly [3 * K]
    segments: with a capacity of at least one, any schedule the [K] tasks
    have run so far extends to one after which every task is done. *)
Theorem every_run_completes (capacity : Z) (K : nat) (sched : list nat)
        (st : System) :
  1 <= capacity ->
  exec sched (launch capacity K) = Stepped st ->
  exists more st',
    exec (sched ++ more) (launch capacity K) = Stepped st'
    /\ all_done st'
    /\ length (sched ++ more) = (3 * K)%nat.
Proof.
  intros HC H.
  pose proof (launch_reaches_consistent _ _ _ H) as Hc.
  pose proof (exec_remaining _ _ H) as Hr.
  cbn [launch tasks] in Hr. rewrite total_repeat in Hr. cbn [remaining] in Hr.
  pose proof (total_remaining_nonneg (tasks st)) as Hpos.
  destruct (@consistent_completion capacity K
              (Z.to_nat (total remaining (tasks st))) HC st Hc)
    as (more & st' & He & Hd & Hl); [lia |].
  exists more, st'. rewrite exec_app, H. split; [exact He |].
  split; [exact Hd |]. rewrite length_app, Hl. lia.
Qed.

Lemma every_run_completes_witness :
  exists more st',
    exec ([0; 1; 0]%nat ++ more) (launch 1 2) = Stepped st'
    /\ all_done st'
    /\ length ([0; 1; 0]%nat ++ more) = (3 * 2)%nat.
Proof.
  apply (@every_run_completes 1 2 [0; 1; 0]%nat
           {| semaphore := {| capacityLeft := 0; queue := [1%nat] |};
              tasks := [Working; Waiting];
              results := [0%nat] |}).
  - lia.
  - reflexivity.
Defined.

(** X12. On a semaphore of capacity [capacity] with
    [1 <= capacity <= 2^53], when all [K] tasks are done the semaphore is as
    constructed (all units back, nobody queued) and [results] holds each task
    index [0 .. K-1] exactly once. *)
Theorem final_state (capacity : Z) (K : nat) (sched : list nat) (st : System) :
  1 <= capacity <= EXACT_LIMIT ->
  exec sched (launch capacity K) = Stepped st ->
  all_done st ->
  semaphore st = constructor capacity
  /\ Permutation (results st) (seq 0 K).
Proof.
  intros HC H Hd. pose proof (launch_reaches_consistent _ _ _ H) as Hc.
  destruct (all_done_nothing_left _ Hd) as [_ Hh].
  split.
  - pose proof (cons_units Hc ltac:(lia)) as Hu. unfold holders in Hu.
    rewrite Hh in Hu.
    assert (Hq : queue (semaphore st) = []).
    { destruct (queue (semaphore st)) as [| r rest] eqn:Hq; [reflexivity |].
      assert (Hin : In r (queue (semaphore st))) by (rewrite Hq; left; reflexivity).
      apply (cons_queue Hc) in Hin. apply Hd in Hin. discriminate. }
    destruct (semaphore st) as [c q]. simpl in *. unfold constructor.
    f_equal; [lia | exact Hq].
  - apply NoDup_Permutation; [exact (cons_results_nodup Hc) | apply seq_NoDup |].
    intros i. rewrite (cons_results Hc), in_seq, <- (cons_length Hc).
    split.
    + intros Hi. split; [lia |]. simpl.
      apply nth_error_Some. destruct Hi as [Hi | Hi]; rewrite Hi; discriminate.
    + intros [_ Hi]. simpl in Hi. apply nth_error_Some in Hi.
      destruct (nth_error (tasks st) i) as [p |] eqn:Hp; [| contradiction Hi; reflexivity].
      right. rewrite (Hd i p Hp). reflexivity.
Qed.

Lemma final_state_witness :
  semaphore {| semaphore := constructor 1; tasks := [Done; Done];
               results := [0; 1]%nat |} = constructor 1
  /\ Permutation
       (results {| semaphore := constructor 1; tasks := [Done; Done];
                   results := [0; 1]%nat |})
       (seq 0 2).
Proof.
  apply (@final_state 1 2 [0; 1; 0; 0; 1; 1]%nat).
  - unfold EXACT_LIMIT. lia.
  - reflexivity.
  - intros [| [| i]] p Hp; simpl in Hp;
      [injection Hp as <-; reflexivity | injection Hp as <-; reflexivity |].
    destruct i; discriminate.
Defined.

(** X13. Each task runs at most three segments: a schedule that the [K]
    tasks can run has exactly [3 * K] entries minus the segments the tasks
    still have to run, so never more than [3 * K]. *)
Theorem schedule_length (capacity : Z) (K : nat) (sched : list nat)
        (st : System) :
  exec sched (launch capacity K) = Stepped st ->
  Z.of_nat (length sched) + total remaining (tasks st) = 3 * Z.of_nat K
  /\ (length sched <= 3 * K)%nat.
Proof.
  intros H. pose proof (exec_remaining _ _ H) as Hr.
  cbn [launch tasks] in Hr. rewrite total_repeat in Hr. cbn [remaining] in Hr.
  pose proof (total_remaining_nonneg (tasks st)) as Hpos.
  split; lia.
Qed.

Lemma schedule_length_witness :
  Z.of_nat (length [0; 1; 0]%nat)
  + total remaining
      (tasks {| semaphore := {| capacityLeft := 0; queue := [1%nat] |};
                tasks := [Working; Waiting];
                results := [0%nat] |})
  = 3 * Z.of_nat 2
  /\ (length [0; 1; 0]%nat <= 3 * 2)%nat.
Proof. apply (@schedule_length 1 2 [0; 1; 0]%nat). reflexivity. Defined.

(** X14. A task enters the critical section at most once: in every state
    the tasks can reach, [results] has no duplicate and holds exactly the
    indices of the tasks that are in their critical section or done. *)
Theorem critical_section_once (capacity : Z) (K : nat) (sched : list nat)
        (st : System) :
  exec sched (launch capacity K) = Stepped st ->
  NoDup (results st)
  /\ (forall i, In i (results st)
                <-> (nth_error (tasks st) i = Some Working
                     \/ nth_error (tasks st) i = Some Done)).
Proof.
  intros H. pose proof (launch_reaches_consistent _ _ _ H) as Hc.
  split; [exact (cons_results_nodup Hc) | exact (cons_results Hc)].
Qed.

Lemma critical_section_once_witness :
  NoDup [0%nat]
  /\ (forall i, In i [0%nat]
                <-> (nth_error [Working; Waiting] i = Some Working
                     \/ nth_error [Working; Waiting] i = Some Done)).
Proof.
  apply (@critical_section_once 1 2 [0; 1; 0]%nat
           {| semaphore := {| capacityLeft := 0; queue := [1%nat] |};
              tasks := [Working; Waiting];
              results := [0%nat] |}).
  reflexivity.
Defined.

(** X15. No lost wake-up: in every state the tasks can reach, the queue of
    the semaphore holds, without duplicate, exactly the tasks that are
    suspended in [down]; a suspended task is always in line for a unit. *)
Theorem waiting_iff_queued (capacity : Z) (K : nat) (sched : list nat)
        (st : System) :
  exec sched (launch capacity K) = Stepped st ->
  NoDup (queue (semaphore st))
  /\ (forall i, In i (queue (semaphore st))
                <-> nth_error (tasks st) i = Some Waiting).
Proof.
  intros H. pose proof (launch_reaches_consistent _ _ _ H) as Hc.
  split; [exact (cons_queue_nodup Hc) | exact (cons_queue Hc)].
Qed.

Lemma waiting_iff_queued_witness :
  NoDup [1%nat]
  /\ (forall i, In i [1%nat] <-> nth_error [Working; Waiting] i = Some Waiting).
Proof.
  apply (@waiting_iff_queued 1 2 [0; 1; 0]%nat
           {| semaphore := {| capacityLeft := 0; queue := [1%nat] |};
              tasks := [Working; Waiting];
              results := [0%nat] |}).
  reflexivity.
Defined.

(** *** Starting the tasks in index order *)

Lemma nth_error_middle (i : nat) (l1 l2 : list phase) (q : phase) :
  length l1 = i -> nth_error (l1 ++ q :: l2) i = Some q.
Proof.
  intros <-. induction l1 as [| x l1 IH]; [reflexivity | exact IH].
Qed.

Lemma set_phase_middle (i : nat) (l1 l2 : list phase) (p q : phase) :
  length l1 = i -> set_phase i p (l1 ++ q :: l2) = l1 ++ p :: l2.
Proof.
  intros <-. induction l1 as [| x l1 IH]; [reflexivity |].
  simpl. rewrite IH. reflexivity.
Qed.

Lemma repeat_snoc (p : phase) (n : nat) :
  repeat p n ++ [p] = repeat p (S n).
Proof. symmetry. apply repeat_cons. Qed.

(** X16. Started in index order, as [Array.from] starts them, on a
    semaphore of capacity at most [2^53], the first [capacity] of [K] tasks
    (all of them if [K] is less; none if the capacity is zero or negative)
    are granted a unit at once and the others are suspended, queued in index
    order; after [m] starts the tasks from [m] on have not started. *)
Theorem started_in_order (capacity : Z) (K m : nat) :
  capacity <= EXACT_LIMIT ->
  (m <= K)%nat ->
  exec (seq 0 m) (launch capacity K)
  = Stepped
      {| semaphore :=
           {| capacityLeft :=
                capacity - Z.of_nat (Nat.min (Z.to_nat capacity) m);
              queue := seq (Z.to_nat capacity) (m - Z.to_nat capacity) |};
         tasks := repeat Granted (Nat.min (Z.to_nat capacity) m)
                  ++ repeat Waiting (m - Z.to_nat capacity)
                  ++ repeat Idle (K - m);
         results := [] |}.
Proof.
  intros HL. set (c := Z.to_nat capacity).
  induction m as [| m IH]; intros Hm.
  - unfold launch, constructor. simpl. rewrite Nat.min_0_r, Nat.sub_0_r.
    simpl. rewrite Z.sub_0_r. reflexivity.
  - rewrite seq_S, exec_app, IH by lia. clear IH. cbn [Nat.add exec].
    set (pre := repeat Granted (Nat.min c m) ++ repeat Waiting (m - c)).
    assert (Hpre : length pre = m).
    { unfold pre. rewrite length_app, !repeat_length. lia. }
    assert (Htasks : repeat Granted (Nat.min c m) ++ repeat Waiting (m - c)
                     ++ repeat Idle (K - m)
                     = pre ++ Idle :: repeat Idle (K - S m)).
    { unfold pre. rewrite <- app_assoc. do 2 f_equal.
      replace (K - m)%nat with (S (K - S m)) by lia. reflexivity. }
    rewrite Htasks.
    destruct (Nat.lt_ge_cases m c) as [Hlt | Hge].
    + (* still a unit left *)
      rewrite segment_start_acquire;
        cbn [tasks semaphore capacityLeft queue results];
        [| apply nth_error_middle; exact Hpre | lia].
      rewrite set_phase_middle by exact Hpre.
      rewrite decr_exact by lia.
      do 2 f_equal.
      * f_equal; [lia |]. replace (S m - c)%nat with 0%nat by lia.
        replace (m - c)%nat with 0%nat by lia. reflexivity.
      * unfold pre. replace (m - c)%nat with 0%nat by lia.
        replace (S m - c)%nat with 0%nat by lia.
        replace (Nat.min c m) with m by lia.
        replace (Nat.min c (S m)) with (S m) by lia.
        simpl app. rewrite app_nil_r.
        change (repeat Granted m ++ Granted :: repeat Idle (K - S m))
          with (repeat Granted m ++ [Granted] ++ repeat Idle (K - S m)).
        rewrite app_assoc, repeat_snoc. reflexivity.
    + (* no unit left *)
      rewrite segment_start_suspend;
        cbn [tasks semaphore capacityLeft queue results];
        [| apply nth_error_middle; exact Hpre | lia].
      rewrite set_phase_middle by exact Hpre.
      do 2 f_equal.
      * f_equal; [lia |].
        replace (S m - c)%nat with (S (m - c)) by lia.
        rewrite seq_S. do 2 f_equal. lia.
      * unfold pre. replace (Nat.min c (S m)) with (Nat.min c m) by lia.
        replace (S m - c)%nat with (S (m - c)) by lia.
        rewrite <- app_assoc. f_equal.
        change (repeat Waiting (m - c) ++ Waiting :: repeat Idle (K - S m))
          with (repeat Waiting (m - c) ++ [Waiting] ++ repeat Idle (K - S m)).
        rewrite app_assoc, repeat_snoc. reflexivity.
Qed.

Lemma started_in_order_witness :
  exec (seq 0 3) (launch 2 4)
  = Stepped
      {| semaphore :=
           {| capacityLeft := 2 - Z.of_nat (Nat.min (Z.to_nat 2) 3);
              queue := seq (Z.to_nat 2) (3 - Z.to_nat 2) |};
         tasks := repeat Granted (Nat.min (Z.to_nat 2) 3)
                  ++ repeat Waiting (3 - Z.to_nat 2)
                  ++ repeat Idle (4 - 3);
         results := [] |}.
Proof.
  apply (@started_in_order 2 4 3); [unfold EXACT_LIMIT; lia | lia].
Defined.
